(** * memory_ops (ARM Cortex-M4): byte-wise compare, copy and fill

    A shallow embedding of [src/src/memory_ops.c] and of the status codes of
    [src/inc/memory_ops.h].  The three functions consist of a null check
    written in C followed by an inline assembly loop; the loops are modelled
    instruction by instruction over a small machine state (the operand
    registers of the [asm] block, the scratch registers r2 and r3, the Z flag,
    a byte memory and the log of the memory accesses performed).

    Modelling choices:
    - registers, pointers and [size_t] are 32-bit: values are integers in
      [0, 2^32) and the arithmetic of [subs] and of the post-increments
      wraps around;
    - the memory is flat: each of the 2^32 addresses holds a byte that can
      be loaded and stored, no access faults, and the locals of the C
      functions live in registers; this is exact as long as the accesses
      stay inside the regions of the call, which is the case for sizes of
      at least one byte, and the properties proved of the functions are
      stated for such sizes or for calls that return;
    - every load and store is appended to a log, so that the absence of
      memory accesses, or of accesses outside a region, is a statement about
      the log;
    - a loop takes a bound on its number of passes; with the bound
      [trips size] or more it returns. *)

From Stdlib Require Import ZArith List Bool Lia.
Import ListNotations.
Local Open Scope Z_scope.

(** ** Machine words *)

(** Registers and addresses of the Cortex-M4 are 32 bits wide; [size_t] and
    pointers are 32-bit values. *)
Definition modulus : Z := 2 ^ 32.

Definition wrap (x : Z) : Z := x mod modulus.

(** The null pointer is address 0. *)
Definition NULL : Z := 0.

(** ** Machine state *)

(** [Op0] .. [Op3] are the registers the compiler binds to the operands
    [%0] .. [%3] of an [asm] block; [R2] and [R3] are the scratch registers
    the blocks name and declare as clobbered, hence distinct from the
    operand registers. *)
Inductive reg : Type := Op0 | Op1 | Op2 | Op3 | R2 | R3.

Definition reg_eqb (a b : reg) : bool :=
  match a, b with
  | Op0, Op0 | Op1, Op1 | Op2, Op2 | Op3, Op3 | R2, R2 | R3, R3 => true
  | _, _ => false
  end.

(** One entry of the access log per byte transferred to or from memory. *)
Inductive event : Type :=
| Load (addr : Z)
| Store (addr : Z) (val : Z).

Definition event_addr (e : event) : Z :=
  match e with
  | Load a => a
  | Store a _ => a
  end.

Record machine : Type := Machine {
  regs : reg -> Z;
  zf : bool;
  mem : Z -> Z;
  trace : list event
}.

Definition set_reg (r : reg) (v : Z) (s : machine) : machine :=
  Machine (fun r' => if reg_eqb r r' then v else regs s r')
          (zf s) (mem s) (trace s).

Definition set_zf (b : bool) (s : machine) : machine :=
  Machine (regs s) b (mem s) (trace s).

Definition set_mem (a v : Z) (s : machine) : machine :=
  Machine (regs s) (zf s)
          (fun a' => if a' =? a then v else mem s a') (trace s).

Definition log (e : event) (s : machine) : machine :=
  Machine (regs s) (zf s) (mem s) (trace s ++ [e]).

(** The byte stored at an address. *)
Definition read_byte (m : Z -> Z) (a : Z) : Z := m a mod 256.

(** ** Instructions used by the three loops *)

(** [ldrb rt, [rn], #1]: load the byte at [rn], zero-extended, then
    post-increment [rn]. *)
Definition ldrb_post (rt rn : reg) (s : machine) : machine :=
  let a := regs s rn in
  let s := set_reg rt (read_byte (mem s) a) (log (Load a) s) in
  set_reg rn (wrap (a + 1)) s.

(** [strb rt, [rn], #1]: store the low byte of [rt] at [rn], then
    post-increment [rn]. *)
Definition strb_post (rt rn : reg) (s : machine) : machine :=
  let a := regs s rn in
  let v := regs s rt mod 256 in
  let s := log (Store a v) (set_mem a v s) in
  set_reg rn (wrap (a + 1)) s.

(** [cmp rn, rm]: of the flags only Z is read by the code. *)
Definition cmp (rn rm : reg) (s : machine) : machine :=
  set_zf (regs s rn =? regs s rm) s.

(** [subs rd, rn, #imm]: subtract modulo 2^32 and set Z on a zero result. *)
Definition subs_imm (rd rn : reg) (imm : Z) (s : machine) : machine :=
  let r := wrap (regs s rn - imm) in
  set_zf (r =? 0) (set_reg rd r s).

(** [mov rd, #imm] and [mov rd, rm]. *)
Definition mov_imm (rd : reg) (imm : Z) (s : machine) : machine :=
  set_reg rd imm s.

Definition mov_reg (rd rm : reg) (s : machine) : machine :=
  set_reg rd (regs s rm) s.

(** [bne label] is taken when Z is clear. *)
Definition bne_taken (s : machine) : bool := negb (zf s).

(** ** Status codes (memory_ops.h) *)

Section StatusCodes.

(** [errno.h] belongs to the toolchain, not to the repository: the two error
    numbers are parameters. *)
Variables EFAULT ENOSYS : Z.

Definition STRUCTS_ARE_EQUAL : Z := 1.
Definition STRUCTS_ARENT_EQUAL : Z := 0.
Definition STRUCTS_COMPARE_ERROR : Z := - ENOSYS.
Definition COMPARE_BAD_ADDRESS : Z := - EFAULT.

Definition STRUCT_COPIED : Z := 0.
Definition STRUCT_NOT_COPIED : Z := 1.
Definition STRUCT_COPY_ERROR : Z := - ENOSYS.
Definition COPY_BAD_ADDRESS : Z := - EFAULT.

Definition STRUCT_FILLED : Z := 0.
Definition STRUCT_NOT_FILLED : Z := 1.
Definition STRUCT_FILL_ERROR : Z := - ENOSYS.
Definition FILL_BAD_ADDRESS : Z := - EFAULT.

(** ** The assembly loops

    A loop is a function of the machine state; [fuel] bounds the number of
    passes through the loop label, and [None] means the bound was reached. *)

(** The [asm] block of [MEM_compareStructs]: [%0] size, [%1] struct_a,
    [%2] struct_b, [%3] status_out, [%4] and [%5] the immediates
    [STRUCTS_ARENT_EQUAL] and [STRUCTS_ARE_EQUAL]. *)
Fixpoint cmp_loop (fuel : nat) (s : machine) : option machine :=
  match fuel with
  | O => None
  | S fuel' =>
      let s := ldrb_post R2 Op1 s in
      let s := ldrb_post R3 Op2 s in
      let s := cmp R2 R3 s in
      if bne_taken s then
        (* not_equal: *)
        Some (mov_imm Op3 STRUCTS_ARENT_EQUAL s)
      else
        let s := subs_imm Op0 Op0 1 s in
        if bne_taken s then cmp_loop fuel' s
        else
          (* equal: *)
          Some (mov_imm Op3 STRUCTS_ARE_EQUAL s)
  end.

(** The [asm] block of [MEM_copyStruct]: [%0] size, [%1] source,
    [%2] destine. *)
Fixpoint copy_loop (fuel : nat) (s : machine) : option machine :=
  match fuel with
  | O => None
  | S fuel' =>
      let s := ldrb_post R2 Op1 s in
      let s := strb_post R2 Op2 s in
      let s := subs_imm Op0 Op0 1 s in
      if bne_taken s then copy_loop fuel' s else Some s
  end.

(** The loop of the [asm] block of [MEM_fillStruct]: [%0] size,
    [%1] struct_ptr; r2 holds the fill value. *)
Fixpoint fill_loop (fuel : nat) (s : machine) : option machine :=
  match fuel with
  | O => None
  | S fuel' =>
      let s := strb_post R2 Op1 s in
      let s := subs_imm Op0 Op0 1 s in
      if bne_taken s then fill_loop fuel' s else Some s
  end.

(** ** The three functions

    Each takes the machine state at the call and returns the status together
    with the state at the return.  The arguments are 32-bit values
    ([0 <= x < modulus]) and [value] is a [uint8_t]. *)

Definition MEM_compareStructs (fuel : nat) (struct_a struct_b size : Z)
    (s : machine) : option (Z * machine) :=
  let status_out := STRUCTS_ARE_EQUAL in
  if (struct_a =? NULL) || (struct_b =? NULL) then
    let status_out := COMPARE_BAD_ADDRESS in
    Some (status_out, s)
  else
    let s := set_reg Op0 size (set_reg Op1 struct_a (set_reg Op2 struct_b s)) in
    match cmp_loop fuel s with
    | Some s' => let status_out := regs s' Op3 in Some (status_out, s')
    | None => None
    end.

Definition MEM_copyStruct (fuel : nat) (source destine size : Z)
    (s : machine) : option (Z * machine) :=
  let status_out := STRUCT_COPIED in
  if (source =? NULL) || (destine =? NULL) then
    let status_out := COPY_BAD_ADDRESS in
    Some (status_out, s)
  else
    let s := set_reg Op0 size (set_reg Op1 source (set_reg Op2 destine s)) in
    match copy_loop fuel s with
    | Some s' => Some (status_out, s')
    | None => None
    end.

Definition MEM_fillStruct (fuel : nat) (struct_ptr size value : Z)
    (s : machine) : option (Z * machine) :=
  let status_out := STRUCT_FILLED in
  if struct_ptr =? NULL then
    let status_out := FILL_BAD_ADDRESS in
    Some (status_out, s)
  else
    let s := set_reg Op0 size (set_reg Op1 struct_ptr (set_reg Op2 value s)) in
    let s := mov_reg R2 Op2 s in
    match fill_loop fuel s with
    | Some s' => Some (status_out, s')
    | None => None
    end.

End StatusCodes.

(** The number of passes a loop makes when entered with [size] in [%0]: the
    counter is decremented before it is tested, so 0 counts as 2^32. *)
Definition trips (size : Z) : nat :=
  Z.to_nat (if size =? 0 then modulus else size).

(** A countdown loop whose body ends in [subs %0, %0, #1; bne loop]. *)
Fixpoint do_while (body : machine -> machine) (fuel : nat) (s : machine)
    : option machine :=
  match fuel with
  | O => None
  | S fuel' =>
      let s := body s in
      if bne_taken s then do_while body fuel' s else Some s
  end.

(** One pass of the copy loop and of the fill loop. *)
Definition copy_body (s : machine) : machine :=
  subs_imm Op0 Op0 1 (strb_post R2 Op2 (ldrb_post R2 Op1 s)).

Definition fill_body (s : machine) : machine :=
  subs_imm Op0 Op0 1 (strb_post R2 Op1 s).

(** ** Regions, fixtures and the claims as predicates *)

(** Address [x] lies in the region of [n] bytes that starts at [a]
    (addresses taken modulo 2^32). *)
Definition in_region (a n x : Z) : bool := wrap (x - a) <? n.

(** The regions of [n] bytes at [a] and at [b] share no address. *)
Definition disjoint (a b n : Z) : Prop :=
  forall i j, 0 <= i < n -> 0 <= j < n -> wrap (a + i) <> wrap (b + j).

(** A machine whose memory holds the bytes [l] from address [base] on and 0
    elsewhere, with cleared registers and an empty log. *)
Definition mem_of_list (base : Z) (l : list Z) (a : Z) : Z :=
  if (base <=? a) && (a <? base + Z.of_nat (length l))
  then nth (Z.to_nat (a - base)) l 0 else 0.

Definition boot (m : Z -> Z) : machine :=
  Machine (fun _ => 0) false m [].

(** The loads of [n] passes of the compare loop over [a] and [b]. *)
Fixpoint cmp_events (a b : Z) (n : nat) : list event :=
  match n with
  | O => []
  | S n' => Load a :: Load b :: cmp_events (wrap (a + 1)) (wrap (b + 1)) n'
  end.

(** The machine on entry to an [asm] block: the tied input operands are in
    [%0], [%1] and [%2]; for fill the value is in [%2] and is first moved to
    r2. *)
Definition entry (size r1 r2 : Z) (s : machine) : machine :=
  set_reg Op0 size (set_reg Op1 r1 (set_reg Op2 r2 s)).

Definition fill_entry (size ptr value : Z) (s : machine) : machine :=
  mov_reg R2 Op2 (entry size ptr value s).

(** SRAM starts at 0x20000000 on the Cortex-M4. *)
Definition SRAM : Z := 536870912.

Definition two_bytes : machine := boot (mem_of_list SRAM [1; 2]).



Definition three_bytes : machine := boot (mem_of_list SRAM [1; 2; 3]).

(** What C5 promises of [copy(src, dst, n)] on the machine [s]. *)
Definition copy_claim (EFAULT src dst n : Z) (s : machine) (fuel : nat)
    : Prop :=
  exists s',
    MEM_copyStruct EFAULT fuel src dst n s = Some (STRUCT_COPIED, s') /\
    (forall i, 0 <= i < n ->
       read_byte (mem s') (wrap (dst + i)) = read_byte (mem s) (wrap (src + i)))
    /\
    (forall i, 0 <= i < n ->
       read_byte (mem s') (wrap (src + i)) = read_byte (mem s) (wrap (src + i))).

(** What C7 promises of [copy(src, dst, n)] followed by
    [compare(src, dst, n)]. *)
Definition roundtrip_claim (EFAULT src dst n : Z) (s : machine) (fuel : nat)
    : Prop :=
  exists r s1 s2,
    MEM_copyStruct EFAULT fuel src dst n s = Some (r, s1) /\
    MEM_compareStructs EFAULT fuel src dst n s1 = Some (STRUCTS_ARE_EQUAL, s2).

(** Whatever a call returns satisfies [P]; a call returns. *)
Definition codes_only (run : nat -> option (Z * machine)) (P : Z -> Prop)
    : Prop :=
  forall fuel r s', run fuel = Some (r, s') -> P r.

Definition does_return (run : nat -> option (Z * machine)) : Prop :=
  exists fuel r s', run fuel = Some (r, s').

(** The codes C8 allows each function, and those it excludes. *)
Definition compare_codes (EFAULT ENOSYS r : Z) : Prop :=
  (r = STRUCTS_ARE_EQUAL \/ r = STRUCTS_ARENT_EQUAL \/
   r = COMPARE_BAD_ADDRESS EFAULT) /\
  r <> STRUCTS_COMPARE_ERROR ENOSYS.

Definition copy_codes (EFAULT ENOSYS r : Z) : Prop :=
  (r = STRUCT_COPIED \/ r = COPY_BAD_ADDRESS EFAULT) /\
  r <> STRUCT_NOT_COPIED /\ r <> STRUCT_COPY_ERROR ENOSYS.

Definition fill_codes (EFAULT ENOSYS r : Z) : Prop :=
  (r = STRUCT_FILLED \/ r = FILL_BAD_ADDRESS EFAULT) /\
  r <> STRUCT_NOT_FILLED /\ r <> STRUCT_FILL_ERROR ENOSYS.

(** What C10 says of the integer values: the constants, the sign of the
    BAD_ADDRESS codes, and the integers the functions hand back. *)
Definition encoding_claim (EFAULT : Z) : Prop :=
  STRUCTS_ARE_EQUAL = 1 /\ STRUCTS_ARENT_EQUAL = 0 /\
  STRUCT_COPIED = 0 /\ STRUCT_FILLED = 0 /\
  COMPARE_BAD_ADDRESS EFAULT = - EFAULT /\
  COPY_BAD_ADDRESS EFAULT = - EFAULT /\
  FILL_BAD_ADDRESS EFAULT = - EFAULT /\
  - EFAULT < 0 /\
  - EFAULT <> STRUCTS_ARE_EQUAL /\ - EFAULT <> STRUCTS_ARENT_EQUAL /\
  - EFAULT <> STRUCT_COPIED /\ - EFAULT <> STRUCT_FILLED /\
  (* compare hands back -EFAULT on a null reference, else 1 or 0 *)
  (forall a b n s fuel r s',
     MEM_compareStructs EFAULT fuel a b n s = Some (r, s') ->
     if (a =? NULL) || (b =? NULL) then r = - EFAULT else r = 1 \/ r = 0) /\
  (* 1 on equal buffers of n >= 1 bytes *)
  (forall a b n s fuel,
     a <> NULL -> b <> NULL ->
     0 <= a < modulus -> 0 <= b < modulus -> 1 <= n < modulus ->
     (trips n <= fuel)%nat ->
     (forall i, 0 <= i < n ->
        read_byte (mem s) (wrap (a + i)) = read_byte (mem s) (wrap (b + i))) ->
     exists s', MEM_compareStructs EFAULT fuel a b n s = Some (1, s')) /\
  (* 0 on buffers that differ at some index below n *)
  (forall a b n s fuel,
     a <> NULL -> b <> NULL ->
     0 <= a < modulus -> 0 <= b < modulus -> 0 <= n < modulus ->
     (trips n <= fuel)%nat ->
     (exists i, 0 <= i < n /\
        read_byte (mem s) (wrap (a + i)) <> read_byte (mem s) (wrap (b + i))) ->
     exists s', MEM_compareStructs EFAULT fuel a b n s = Some (0, s')) /\
  (* copy and fill hand back -EFAULT on a null reference, else 0 *)
  (forall src dst n s fuel r s',
     MEM_copyStruct EFAULT fuel src dst n s = Some (r, s') ->
     r = if (src =? NULL) || (dst =? NULL) then - EFAULT else 0) /\
  (forall ptr n v s fuel r s',
     MEM_fillStruct EFAULT fuel ptr n v s = Some (r, s') ->
     r = if ptr =? NULL then - EFAULT else 0).

(** The events a call appended to the log. *)
Definition appended (s s' : machine) (l : list event) : Prop :=
  trace s' = trace s ++ l.

(** An event of compare, of copy and of fill that stays inside the
    regions of the call. *)
Definition loads_in (a b n : Z) (e : event) : bool :=
  match e with
  | Load x => in_region a n x || in_region b n x
  | Store _ _ => false
  end.

Definition copy_in (src dst n : Z) (e : event) : bool :=
  match e with
  | Load x => in_region src n x
  | Store x _ => in_region dst n x
  end.

Definition stores_in (ptr n v : Z) (e : event) : bool :=
  match e with
  | Load _ => false
  | Store x y => in_region ptr n x && (y =? v)
  end.

(** ** Notions used by the further properties *)

(** The status a call returned, if it returned. *)
Definition status_of (o : option (Z * machine)) : option Z :=
  match o with
  | Some (r, _) => Some r
  | None => None
  end.

Definition is_load (e : event) : bool :=
  match e with
  | Load _ => true
  | Store _ _ => false
  end.

(** An event without the value it carried. *)
Definition erase (e : event) : event :=
  match e with
  | Load a => Load a
  | Store a _ => Store a 0
  end.

(** The accesses of [n] passes of the copy loop, values erased, and the
    stores of [n] passes of the fill loop. *)
Definition copy_order (src dst : Z) (n : nat) : list event :=
  flat_map (fun i => [Load (wrap (src + Z.of_nat i));
                      Store (wrap (dst + Z.of_nat i)) 0]) (seq 0 n).

Definition fill_order (ptr v : Z) (n : nat) : list event :=
  map (fun i => Store (wrap (ptr + Z.of_nat i)) v) (seq 0 n).

(** Two buffers 1, 2, 3 at SRAM and at SRAM + 8, and three buffers 1, 2 at
    SRAM, SRAM + 4 and SRAM + 8. *)
Definition twin : machine :=
  boot (mem_of_list SRAM [1; 2; 3; 0; 0; 0; 0; 0; 1; 2; 3]).

Definition triple : machine :=
  boot (mem_of_list SRAM [1; 2; 0; 0; 1; 2; 0; 0; 1; 2]).

(** Buffers 1, 2, 3 at SRAM and 1, 2, 4 at SRAM + 8. *)
Definition twin_differ : machine :=
  boot (mem_of_list SRAM [1; 2; 3; 0; 0; 0; 0; 0; 1; 2; 4]).

(** The machine after compare met the differing first bytes of
    [two_bytes]. *)
Definition two_bytes_compared : machine :=
  mov_imm Op3 STRUCTS_ARENT_EQUAL
    (cmp R2 R3
       (ldrb_post R3 Op2 (ldrb_post R2 Op1 (entry 0 SRAM (SRAM + 1) two_bytes)))).

(** The buffers of [twin] in another setting: other bytes between them,
    other register contents, a set flag and a log that is not empty. *)
Definition twin_noisy : machine :=
  Machine (fun _ => 7) true
          (mem_of_list SRAM [1; 2; 3; 9; 9; 9; 9; 9; 1; 2; 3]) [Load SRAM].

(** ** Arithmetic modulo 2^32 *)

Lemma modulus_pos : 0 < modulus.
Proof. reflexivity. Qed.

Lemma wrap_range x : 0 <= wrap x < modulus.
Proof. apply Z.mod_pos_bound, modulus_pos. Qed.

Lemma wrap_small x : 0 <= x < modulus -> wrap x = x.
Proof. apply Z.mod_small. Qed.

Lemma wrap_add_l a b : wrap (wrap a + b) = wrap (a + b).
Proof. apply Zplus_mod_idemp_l. Qed.

Lemma wrap_sub_l a b : wrap (wrap a - b) = wrap (a - b).
Proof. apply Zminus_mod_idemp_l. Qed.

Lemma wrap_offset_inj a i j :
  0 <= i < modulus -> 0 <= j < modulus ->
  wrap (a + i) = wrap (a + j) -> i = j.
Proof.
  intros Hi Hj E.
  assert (Ei : wrap (wrap (a + i) - a) = i).
  { rewrite wrap_sub_l. replace (a + i - a) with i by lia.
    now apply wrap_small. }
  assert (Ej : wrap (wrap (a + j) - a) = j).
  { rewrite wrap_sub_l. replace (a + j - a) with j by lia.
    now apply wrap_small. }
  rewrite E in Ei. congruence.
Qed.

Lemma in_region_offset a n i :
  0 <= i < n -> n <= modulus -> in_region a n (wrap (a + i)) = true.
Proof.
  intros Hi Hn. unfold in_region. rewrite wrap_sub_l.
  replace (a + i - a) with i by lia.
  rewrite wrap_small by lia. apply Z.ltb_lt; lia.
Qed.

Lemma in_region_empty a x : in_region a 0 x = false.
Proof.
  unfold in_region. apply Z.ltb_ge. apply wrap_range.
Qed.

Lemma trips_pos n : 0 <= n < modulus -> (1 <= trips n)%nat.
Proof.
  intros Hn. unfold trips. pose proof modulus_pos.
  destruct (Z.eqb_spec n 0); lia.
Qed.

Lemma trips_le n : 0 <= n < modulus -> Z.of_nat (trips n) <= modulus.
Proof.
  intros Hn. unfold trips. pose proof modulus_pos.
  destruct (Z.eqb_spec n 0); lia.
Qed.

Lemma trips_wrap n : 0 <= n < modulus -> wrap (Z.of_nat (trips n)) = n.
Proof.
  intros Hn. unfold trips. pose proof modulus_pos.
  destruct (Z.eqb_spec n 0) as [->|Hne].
  - rewrite Z2Nat.id by lia. apply Z_mod_same_full.
  - rewrite Z2Nat.id by lia. now apply wrap_small.
Qed.

Lemma trips_nonzero n : 1 <= n < modulus -> Z.of_nat (trips n) = n.
Proof.
  intros Hn. unfold trips.
  destruct (Z.eqb_spec n 0); lia.
Qed.

(** ** Countdown loops *)

Section Countdown.

Variable body : machine -> machine.
Hypothesis body_count : forall s, regs (body s) Op0 = wrap (regs s Op0 - 1).
Hypothesis body_zf : forall s, zf (body s) = (regs (body s) Op0 =? 0).

Lemma do_while_unroll k :
  forall extra s,
    (1 <= k)%nat -> Z.of_nat k <= modulus ->
    regs s Op0 = wrap (Z.of_nat k) ->
    do_while body (k + extra) s = Some (Nat.iter k body s).
Proof.
  induction k as [|k IH]; intros extra s Hk Hle Hc; [lia|].
  cbn [Nat.add do_while].
  assert (Hc' : regs (body s) Op0 = wrap (Z.of_nat k)).
  { rewrite body_count, Hc, wrap_sub_l. f_equal. lia. }
  unfold bne_taken. rewrite body_zf, Hc'.
  destruct k as [|k'].
  - reflexivity.
  - rewrite wrap_small by lia.
    destruct (Z.eqb_spec (Z.of_nat (S k')) 0) as [E|_]; [lia|].
    cbn [negb]. rewrite IH by (assumption || lia).
    now rewrite <- Nat.iter_succ_r.
Qed.

End Countdown.

Lemma copy_loop_do_while fuel : forall s,
  copy_loop fuel s = do_while copy_body fuel s.
Proof.
  induction fuel as [|fuel IH]; intros s; [reflexivity|].
  cbn [copy_loop do_while]. rewrite IH. reflexivity.
Qed.

Lemma fill_loop_do_while fuel : forall s,
  fill_loop fuel s = do_while fill_body fuel s.
Proof.
  induction fuel as [|fuel IH]; intros s; [reflexivity|].
  cbn [fill_loop do_while]. rewrite IH. reflexivity.
Qed.

(** With enough fuel a countdown loop entered with [size] in [%0] makes
    exactly [trips size] passes. *)
Lemma copy_loop_runs fuel size s :
  0 <= size < modulus -> regs s Op0 = size -> (trips size <= fuel)%nat ->
  copy_loop fuel s = Some (Nat.iter (trips size) copy_body s).
Proof.
  intros Hs Hc Hf.
  replace fuel with (trips size + (fuel - trips size))%nat by lia.
  rewrite copy_loop_do_while.
  apply do_while_unroll; try reflexivity.
  - now apply trips_pos.
  - now apply trips_le.
  - now rewrite trips_wrap.
Qed.

Lemma fill_loop_runs fuel size s :
  0 <= size < modulus -> regs s Op0 = size -> (trips size <= fuel)%nat ->
  fill_loop fuel s = Some (Nat.iter (trips size) fill_body s).
Proof.
  intros Hs Hc Hf.
  replace fuel with (trips size + (fuel - trips size))%nat by lia.
  rewrite fill_loop_do_while.
  apply do_while_unroll; try reflexivity.
  - now apply trips_pos.
  - now apply trips_le.
  - now rewrite trips_wrap.
Qed.

(** ** The fill loop after [k] passes *)

Section FillPasses.

Variable s : machine.
Local Abbreviation p := (regs s Op1).
Local Abbreviation v := (regs s R2 mod 256).
Hypothesis p_range : 0 <= p < modulus.

Lemma fill_iter_regs k :
  regs (Nat.iter k fill_body s) Op1 = wrap (p + Z.of_nat k) /\
  regs (Nat.iter k fill_body s) R2 = regs s R2.
Proof.
  induction k as [|k [IH1 IH2]].
  - cbn [Nat.iter]. rewrite Z.add_0_r, wrap_small; auto.
  - rewrite Nat.iter_succ. split.
    + change (wrap (regs (Nat.iter k fill_body s) Op1 + 1)
              = wrap (p + Z.of_nat (S k))).
      rewrite IH1, wrap_add_l. f_equal. lia.
    + exact IH2.
Qed.

Lemma fill_iter_written k i :
  0 <= i < Z.of_nat k ->
  mem (Nat.iter k fill_body s) (wrap (p + i)) = v.
Proof.
  induction k as [|k IH]; intros Hi; [lia|].
  destruct (fill_iter_regs k) as [E1 E2].
  rewrite Nat.iter_succ.
  change (mem (fill_body (Nat.iter k fill_body s)) (wrap (p + i)))
    with (if wrap (p + i) =? regs (Nat.iter k fill_body s) Op1
          then regs (Nat.iter k fill_body s) R2 mod 256
          else mem (Nat.iter k fill_body s) (wrap (p + i))).
  rewrite E1, E2.
  destruct (Z.eqb_spec (wrap (p + i)) (wrap (p + Z.of_nat k))) as [E|NE].
  - reflexivity.
  - apply IH. assert (i <> Z.of_nat k) by congruence. lia.
Qed.

Lemma fill_iter_frame k a :
  (forall i, 0 <= i < Z.of_nat k -> a <> wrap (p + i)) ->
  mem (Nat.iter k fill_body s) a = mem s a.
Proof.
  induction k as [|k IH]; intros Ha; [reflexivity|].
  destruct (fill_iter_regs k) as [E1 E2].
  rewrite Nat.iter_succ.
  change (mem (fill_body (Nat.iter k fill_body s)) a)
    with (if a =? regs (Nat.iter k fill_body s) Op1
          then regs (Nat.iter k fill_body s) R2 mod 256
          else mem (Nat.iter k fill_body s) a).
  rewrite E1.
  destruct (Z.eqb_spec a (wrap (p + Z.of_nat k))) as [E|NE].
  - exfalso. apply (Ha (Z.of_nat k)); [lia|exact E].
  - apply IH. intros i Hi. apply Ha. lia.
Qed.

Lemma fill_iter_trace k :
  trace (Nat.iter k fill_body s)
  = trace s ++ map (fun i => Store (wrap (p + Z.of_nat i)) v) (seq 0 k).
Proof.
  induction k as [|k IH].
  - cbn. now rewrite app_nil_r.
  - destruct (fill_iter_regs k) as [E1 E2].
    rewrite Nat.iter_succ.
    change (trace (fill_body (Nat.iter k fill_body s)))
      with (trace (Nat.iter k fill_body s)
            ++ [Store (regs (Nat.iter k fill_body s) Op1)
                      (regs (Nat.iter k fill_body s) R2 mod 256)]).
    rewrite IH, E1, E2, seq_S, map_app, <- app_assoc. reflexivity.
Qed.

End FillPasses.

(** ** The copy loop after [k] passes *)

Lemma read_byte_idem m a : read_byte m a mod 256 = read_byte m a.
Proof. unfold read_byte. apply Z.mod_mod. lia. Qed.

Lemma copy_body_mem t a :
  mem (copy_body t) a
  = if a =? regs t Op2 then read_byte (mem t) (regs t Op1) else mem t a.
Proof.
  rewrite <- read_byte_idem. reflexivity.
Qed.

Lemma copy_body_trace t :
  trace (copy_body t)
  = trace t ++ [Load (regs t Op1);
                Store (regs t Op2) (read_byte (mem t) (regs t Op1))].
Proof.
  rewrite <- read_byte_idem.
  change (trace (copy_body t))
    with ((trace t ++ [Load (regs t Op1)])
          ++ [Store (regs t Op2) (read_byte (mem t) (regs t Op1) mod 256)]).
  now rewrite <- app_assoc.
Qed.

Section CopyPasses.

Variable s : machine.
Local Abbreviation p := (regs s Op1).
Local Abbreviation d := (regs s Op2).
Hypothesis p_range : 0 <= p < modulus.
Hypothesis d_range : 0 <= d < modulus.

Lemma copy_iter_regs k :
  regs (Nat.iter k copy_body s) Op1 = wrap (p + Z.of_nat k) /\
  regs (Nat.iter k copy_body s) Op2 = wrap (d + Z.of_nat k).
Proof.
  induction k as [|k [IH1 IH2]].
  - cbn. rewrite !Z.add_0_r, !wrap_small; auto.
  - rewrite Nat.iter_succ. split.
    + change (wrap (regs (Nat.iter k copy_body s) Op1 + 1)
              = wrap (p + Z.of_nat (S k))).
      rewrite IH1, wrap_add_l. f_equal. lia.
    + change (wrap (regs (Nat.iter k copy_body s) Op2 + 1)
              = wrap (d + Z.of_nat (S k))).
      rewrite IH2, wrap_add_l. f_equal. lia.
Qed.

Lemma copy_iter_frame k a :
  (forall i, 0 <= i < Z.of_nat k -> a <> wrap (d + i)) ->
  mem (Nat.iter k copy_body s) a = mem s a.
Proof.
  induction k as [|k IH]; intros Ha; [reflexivity|].
  destruct (copy_iter_regs k) as [E1 E2].
  rewrite Nat.iter_succ, copy_body_mem, E2.
  destruct (Z.eqb_spec a (wrap (d + Z.of_nat k))) as [E|NE].
  - exfalso. apply (Ha (Z.of_nat k)); [lia|exact E].
  - apply IH. intros i Hi. apply Ha. lia.
Qed.

(** The first destination byte is written once, by the first pass, whatever
    the regions are. *)
Lemma copy_iter_first k :
  (1 <= k)%nat -> Z.of_nat k <= modulus ->
  mem (Nat.iter k copy_body s) d = read_byte (mem s) p.
Proof.
  induction k as [|k IH]; intros Hk Hle; [lia|].
  destruct (copy_iter_regs k) as [E1 E2].
  rewrite Nat.iter_succ, copy_body_mem, E1, E2.
  destruct k as [|k'].
  - cbn [Z.of_nat Nat.iter]. rewrite !Z.add_0_r, !wrap_small by assumption.
    now rewrite Z.eqb_refl.
  - destruct (Z.eqb_spec d (wrap (d + Z.of_nat (S k')))) as [E|NE].
    + exfalso.
      assert (E0 : wrap (d + 0) = wrap (d + Z.of_nat (S k'))).
      { rewrite Z.add_0_r, wrap_small by assumption. exact E. }
      apply wrap_offset_inj in E0; lia.
    + apply IH; lia.
Qed.

Lemma copy_iter_trace k :
  exists l,
    trace (Nat.iter k copy_body s) = trace s ++ l /\
    Forall (fun e => exists i, 0 <= i < Z.of_nat k /\
                     (e = Load (wrap (p + i)) \/
                      exists x, e = Store (wrap (d + i)) x)) l.
Proof.
  induction k as [|k (l & El & Fl)].
  - exists []. cbn. now rewrite app_nil_r.
  - destruct (copy_iter_regs k) as [E1 E2].
    rewrite Nat.iter_succ, copy_body_trace, E1, E2, El.
    eexists. split; [now rewrite <- app_assoc|].
    apply Forall_app. split.
    + eapply Forall_impl; [|exact Fl].
      intros e (i & Hi & He). exists i. split; [lia|exact He].
    + repeat constructor.
      * exists (Z.of_nat k). split; [lia|]. now left.
      * exists (Z.of_nat k). split; [lia|]. right. eauto.
Qed.

(** Over [n] bytes no source byte is stored to before it is loaded. *)
Variable n : Z.
Hypothesis n_range : n < modulus.
Hypothesis sep :
  forall i j, 0 <= j < i -> i < n -> wrap (p + i) <> wrap (d + j).

Lemma copy_iter_copied k i :
  Z.of_nat k <= n -> 0 <= i < Z.of_nat k ->
  mem (Nat.iter k copy_body s) (wrap (d + i)) = read_byte (mem s) (wrap (p + i)).
Proof.
  induction k as [|k IH]; intros Hk Hi; [lia|].
  destruct (copy_iter_regs k) as [E1 E2].
  rewrite Nat.iter_succ, copy_body_mem, E1, E2.
  destruct (Z.eqb_spec (wrap (d + i)) (wrap (d + Z.of_nat k))) as [E|NE].
  - apply wrap_offset_inj in E; [|lia|lia]. subst i.
    unfold read_byte. f_equal. apply copy_iter_frame.
    intros j Hj. apply sep; lia.
  - apply IH; [lia|]. assert (i <> Z.of_nat k) by congruence. lia.
Qed.

End CopyPasses.

(** ** The compare loop *)

Lemma cmp_events_within a b n :
  0 <= a < modulus -> 0 <= b < modulus ->
  Forall (fun e => exists i, 0 <= i < Z.of_nat n /\
                   (e = Load (wrap (a + i)) \/ e = Load (wrap (b + i))))
         (cmp_events a b n).
Proof.
  revert a b. induction n as [|n IH]; intros a b Ha Hb; [constructor|].
  cbn [cmp_events]. constructor; [|constructor].
  - exists 0. split; [lia|]. left. now rewrite Z.add_0_r, wrap_small.
  - exists 0. split; [lia|]. right. now rewrite Z.add_0_r, wrap_small.
  - eapply Forall_impl; [|apply IH; apply wrap_range].
    intros e (i & Hi & He). exists (i + 1). split; [lia|].
    rewrite !wrap_add_l in He.
    replace (a + (i + 1)) with (a + 1 + i) by lia.
    replace (b + (i + 1)) with (b + 1 + i) by lia. exact He.
Qed.

(** The loop reads memory only, and reports in [%3] one of its two
    immediates, for any bound. *)
Lemma cmp_loop_mem fuel : forall s s',
  cmp_loop fuel s = Some s' -> mem s' = mem s.
Proof.
  induction fuel as [|fuel IH]; intros s s' H; [discriminate|].
  cbn [cmp_loop] in H.
  destruct (bne_taken _) in H.
  - now inversion H.
  - destruct (bne_taken _) in H.
    + apply IH in H. exact H.
    + now inversion H.
Qed.

Lemma cmp_loop_status fuel : forall s s',
  cmp_loop fuel s = Some s' ->
  regs s' Op3 = STRUCTS_ARE_EQUAL \/ regs s' Op3 = STRUCTS_ARENT_EQUAL.
Proof.
  induction fuel as [|fuel IH]; intros s s' H; [discriminate|].
  cbn [cmp_loop] in H.
  destruct (bne_taken _) in H.
  - inversion H. now right.
  - destruct (bne_taken _) in H.
    + now apply IH in H.
    + inversion H. now left.
Qed.

(** Entered with [k] in [%0] ([2^32] standing for 0), the loop stops at the
    first index [j < k] whose bytes differ, or after [k] passes. *)
Lemma cmp_loop_spec k : forall extra s,
  (1 <= k)%nat -> Z.of_nat k <= modulus ->
  regs s Op0 = wrap (Z.of_nat k) ->
  0 <= regs s Op1 < modulus -> 0 <= regs s Op2 < modulus ->
  exists s' j,
    cmp_loop (k + extra) s = Some s' /\
    (j < k)%nat /\
    (forall i, 0 <= i < Z.of_nat j ->
       read_byte (mem s) (wrap (regs s Op1 + i))
       = read_byte (mem s) (wrap (regs s Op2 + i))) /\
    trace s' = trace s ++ cmp_events (regs s Op1) (regs s Op2) (S j) /\
    ((regs s' Op3 = STRUCTS_ARENT_EQUAL /\
      read_byte (mem s) (wrap (regs s Op1 + Z.of_nat j))
      <> read_byte (mem s) (wrap (regs s Op2 + Z.of_nat j)))
     \/
     (regs s' Op3 = STRUCTS_ARE_EQUAL /\ S j = k /\
      read_byte (mem s) (wrap (regs s Op1 + Z.of_nat j))
      = read_byte (mem s) (wrap (regs s Op2 + Z.of_nat j)))).
Proof.
  induction k as [|k IH]; intros extra s Hk Hle Hc Ha Hb; [lia|].
  set (a := regs s Op1) in *. set (b := regs s Op2) in *.
  set (s1 := cmp R2 R3 (ldrb_post R3 Op2 (ldrb_post R2 Op1 s))).
  set (s2 := subs_imm Op0 Op0 1 s1).
  assert (Hz1 : zf s1 = (read_byte (mem s) a =? read_byte (mem s) b))
    by reflexivity.
  assert (Ht1 : trace s1 = (trace s ++ [Load a]) ++ [Load b]) by reflexivity.
  assert (Hc2 : regs s2 Op0 = wrap (Z.of_nat k)).
  { change (regs s2 Op0) with (wrap (regs s Op0 - 1)).
    rewrite Hc, wrap_sub_l. f_equal. lia. }
  assert (Hz2 : zf s2 = (regs s2 Op0 =? 0)) by reflexivity.
  cbn [Nat.add cmp_loop]. fold s1. fold s2.
  unfold bne_taken. rewrite Hz1.
  destruct (Z.eqb_spec (read_byte (mem s) a) (read_byte (mem s) b))
    as [Eab|Nab]; cbn [negb].
  - rewrite Hz2, Hc2.
    destruct k as [|k'].
    + (* last pass *)
      cbn [Z.of_nat]. change (wrap 0 =? 0) with true. cbn [negb].
      exists (mov_imm Op3 STRUCTS_ARE_EQUAL s2), O.
      split; [reflexivity|]. split; [lia|]. split; [intros; lia|].
      split.
      { change (trace (mov_imm Op3 STRUCTS_ARE_EQUAL s2)) with (trace s1).
        rewrite Ht1, <- app_assoc. reflexivity. }
      right. split; [reflexivity|]. split; [reflexivity|].
      cbn [Z.of_nat]. now rewrite !Z.add_0_r, !wrap_small.
    + rewrite wrap_small by lia.
      destruct (Z.eqb_spec (Z.of_nat (S k')) 0) as [E|_]; [lia|].
      cbn [negb].
      destruct (IH extra s2) as (s' & j & Hrun & Hj & Heq & Htr & Hres).
      * lia.
      * lia.
      * exact Hc2.
      * apply wrap_range.
      * apply wrap_range.
      * change (regs s2 Op1) with (wrap (a + 1)) in *.
        change (regs s2 Op2) with (wrap (b + 1)) in *.
        change (mem s2) with (mem s) in *.
        change (trace s2) with (trace s1) in *.
        assert (Hsh : forall x i, wrap (wrap (x + 1) + i) = wrap (x + (i + 1))).
        { intros x i. rewrite wrap_add_l. f_equal. lia. }
        exists s', (S j).
        split; [exact Hrun|]. split; [lia|]. split.
        { intros i Hi. destruct (Z.eq_dec i 0) as [->|Hne].
          - now rewrite !Z.add_0_r, !wrap_small.
          - replace i with ((i - 1) + 1) by lia. rewrite <- !Hsh.
            apply Heq. lia. }
        split.
        { rewrite Htr, Ht1, <- !app_assoc. reflexivity. }
        replace (Z.of_nat (S j)) with (Z.of_nat j + 1) by lia.
        rewrite <- !Hsh.
        destruct Hres as [[R1 R2']|(R1 & R2' & R3')].
        { left. now split. }
        { right. split; [exact R1|]. split; [lia|exact R3']. }
  - exists (mov_imm Op3 STRUCTS_ARENT_EQUAL s1), O.
    split; [reflexivity|]. split; [lia|]. split; [intros; lia|].
    split.
    { change (trace (mov_imm Op3 STRUCTS_ARENT_EQUAL s1)) with (trace s1).
      rewrite Ht1, <- app_assoc. reflexivity. }
    left. split; [reflexivity|].
    cbn [Z.of_nat]. now rewrite !Z.add_0_r, !wrap_small.
Qed.

(** ** More fuel does not change a result *)

Lemma cmp_loop_more fuel : forall extra s s',
  cmp_loop fuel s = Some s' -> cmp_loop (fuel + extra) s = Some s'.
Proof.
  induction fuel as [|fuel IH]; intros extra s s' H; [discriminate|].
  cbn [Nat.add cmp_loop] in *.
  destruct (bne_taken _); [exact H|].
  destruct (bne_taken _); [now apply IH|exact H].
Qed.

Lemma do_while_more body fuel : forall extra s s',
  do_while body fuel s = Some s' -> do_while body (fuel + extra) s = Some s'.
Proof.
  induction fuel as [|fuel IH]; intros extra s s' H; [discriminate|].
  cbn [Nat.add do_while] in *.
  destruct (bne_taken _); [now apply IH|exact H].
Qed.

(** A countdown loop does not finish in fewer passes than its counter
    asks for. *)
Lemma do_while_short body :
  (forall s, regs (body s) Op0 = wrap (regs s Op0 - 1)) ->
  (forall s, zf (body s) = (regs (body s) Op0 =? 0)) ->
  forall fuel k s,
    (fuel < k)%nat -> Z.of_nat k <= modulus ->
    regs s Op0 = wrap (Z.of_nat k) ->
    do_while body fuel s = None.
Proof.
  intros Hcount Hzf.
  induction fuel as [|fuel IH]; intros k s Hlt Hle Hc; [reflexivity|].
  destruct k as [|k]; [lia|].
  assert (Hc' : regs (body s) Op0 = wrap (Z.of_nat k)).
  { rewrite Hcount, Hc, wrap_sub_l. f_equal. lia. }
  cbn [do_while]. unfold bne_taken. rewrite Hzf, Hc'.
  rewrite wrap_small by lia.
  destruct (Z.eqb_spec (Z.of_nat k) 0) as [E|_]; [lia|].
  cbn [negb]. apply (IH k); (assumption || lia).
Qed.

(** ** The functions on non-null references *)

Lemma not_null a b :
  a <> NULL -> b <> NULL -> (a =? NULL) || (b =? NULL) = false.
Proof.
  intros Ha Hb. apply orb_false_intro; now apply Z.eqb_neq.
Qed.

Lemma compare_runs EFAULT a b n s fuel :
  a <> NULL -> b <> NULL ->
  0 <= a < modulus -> 0 <= b < modulus -> 0 <= n < modulus ->
  (trips n <= fuel)%nat ->
  exists s' j,
    MEM_compareStructs EFAULT fuel a b n s = Some (regs s' Op3, s') /\
    mem s' = mem s /\
    trace s' = trace s ++ cmp_events a b (S j) /\
    (j < trips n)%nat /\
    (forall i, 0 <= i < Z.of_nat j ->
       read_byte (mem s) (wrap (a + i)) = read_byte (mem s) (wrap (b + i))) /\
    ((regs s' Op3 = STRUCTS_ARENT_EQUAL /\
      read_byte (mem s) (wrap (a + Z.of_nat j))
      <> read_byte (mem s) (wrap (b + Z.of_nat j)))
     \/
     (regs s' Op3 = STRUCTS_ARE_EQUAL /\ S j = trips n /\
      read_byte (mem s) (wrap (a + Z.of_nat j))
      = read_byte (mem s) (wrap (b + Z.of_nat j)))).
Proof.
  intros Ha Hb Ra Rb Rn Hf.
  destruct (cmp_loop_spec (trips n) (fuel - trips n) (entry n a b s))
    as (s' & j & Hrun & Hj & Heq & Htr & Hres).
  - now apply trips_pos.
  - now apply trips_le.
  - change (regs (entry n a b s) Op0) with n. now rewrite trips_wrap.
  - exact Ra.
  - exact Rb.
  - replace (trips n + (fuel - trips n))%nat with fuel in Hrun by lia.
    exists s', j. unfold MEM_compareStructs.
    rewrite not_null by assumption. fold (entry n a b s). rewrite Hrun.
    split; [reflexivity|].
    split; [exact (cmp_loop_mem _ _ _ Hrun)|].
    split; [exact Htr|]. split; [exact Hj|]. split; [exact Heq|exact Hres].
Qed.

Lemma copy_runs EFAULT src dst n s fuel :
  src <> NULL -> dst <> NULL -> 0 <= n < modulus -> (trips n <= fuel)%nat ->
  MEM_copyStruct EFAULT fuel src dst n s
  = Some (STRUCT_COPIED, Nat.iter (trips n) copy_body (entry n src dst s)).
Proof.
  intros Hs Hd Rn Hf. unfold MEM_copyStruct.
  rewrite not_null by assumption. fold (entry n src dst s).
  now rewrite (copy_loop_runs fuel n) by (assumption || reflexivity).
Qed.

Lemma fill_runs EFAULT ptr n v s fuel :
  ptr <> NULL -> 0 <= n < modulus -> (trips n <= fuel)%nat ->
  MEM_fillStruct EFAULT fuel ptr n v s
  = Some (STRUCT_FILLED, Nat.iter (trips n) fill_body (fill_entry n ptr v s)).
Proof.
  intros Hp Rn Hf. unfold MEM_fillStruct.
  apply Z.eqb_neq in Hp. rewrite Hp. fold (entry n ptr v s).
  fold (fill_entry n ptr v s).
  now rewrite (fill_loop_runs fuel n) by (assumption || reflexivity).
Qed.

(** Any bound that lets a call return gives the result of the large bounds. *)
Lemma compare_any_fuel EFAULT a b n s fuel fuel' r s' :
  MEM_compareStructs EFAULT fuel a b n s = Some (r, s') ->
  (fuel <= fuel')%nat ->
  MEM_compareStructs EFAULT fuel' a b n s = Some (r, s').
Proof.
  unfold MEM_compareStructs. intros H Hf.
  destruct ((a =? NULL) || (b =? NULL)); [exact H|].
  destruct (cmp_loop fuel _) as [t|] eqn:E; [|discriminate].
  replace fuel' with (fuel + (fuel' - fuel))%nat by lia.
  now rewrite (cmp_loop_more _ _ _ _ E).
Qed.

Lemma copy_any_fuel EFAULT src dst n s fuel fuel' r s' :
  MEM_copyStruct EFAULT fuel src dst n s = Some (r, s') ->
  (fuel <= fuel')%nat ->
  MEM_copyStruct EFAULT fuel' src dst n s = Some (r, s').
Proof.
  unfold MEM_copyStruct. intros H Hf.
  destruct ((src =? NULL) || (dst =? NULL)); [exact H|].
  rewrite copy_loop_do_while in *.
  destruct (do_while copy_body fuel _) as [t|] eqn:E; [|discriminate].
  replace fuel' with (fuel + (fuel' - fuel))%nat by lia.
  now rewrite (do_while_more _ _ _ _ _ E).
Qed.

Lemma wrap_add_r a b : wrap (a + wrap b) = wrap (a + b).
Proof. apply Zplus_mod_idemp_r. Qed.

Lemma SRAM_range : 0 <= SRAM < modulus.
Proof. split; [discriminate|reflexivity]. Qed.

Lemma SRAM1_range : 0 <= SRAM + 1 < modulus.
Proof. split; [discriminate|reflexivity]. Qed.

Lemma zero_range : 0 <= 0 < modulus.
Proof. split; [discriminate|reflexivity]. Qed.

(** ** Buffers of at least one byte *)

Lemma compare_correct_nonzero EFAULT a b n s fuel :
  a <> NULL -> b <> NULL ->
  0 <= a < modulus -> 0 <= b < modulus -> 1 <= n < modulus ->
  (trips n <= fuel)%nat ->
  exists r s',
    MEM_compareStructs EFAULT fuel a b n s = Some (r, s') /\
    mem s' = mem s /\
    (r = STRUCTS_ARE_EQUAL \/ r = STRUCTS_ARENT_EQUAL) /\
    (r = STRUCTS_ARE_EQUAL <->
     forall i, 0 <= i < n ->
       read_byte (mem s) (wrap (a + i)) = read_byte (mem s) (wrap (b + i))).
Proof.
  intros Ha Hb Ra Rb Rn Hf.
  destruct (compare_runs EFAULT a b n s fuel)
    as (s' & j & Hrun & Hm & _ & Hj & Heq & Hres); try assumption; [lia|].
  assert (Hk : Z.of_nat (trips n) = n) by now apply trips_nonzero.
  exists (regs s' Op3), s'. split; [exact Hrun|]. split; [exact Hm|].
  destruct Hres as [[R Hne]|(R & Hl & He)]; rewrite R.
  - split; [now right|]. split; [discriminate|].
    intros Hall. exfalso. apply Hne, Hall. lia.
  - split; [now left|]. split; [|reflexivity].
    intros _ i Hi. destruct (Z.eq_dec i (Z.of_nat j)) as [->|Hne].
    + exact He.
    + apply Heq. lia.
Qed.

(** On buffers of at least one byte the answer of compare is a function of
    the bytes of the two regions. *)
Lemma compare_regions_only EFAULT a b n s1 s2 fuel :
  a <> NULL -> b <> NULL ->
  0 <= a < modulus -> 0 <= b < modulus -> 1 <= n < modulus ->
  (trips n <= fuel)%nat ->
  (forall i, 0 <= i < n ->
     read_byte (mem s1) (wrap (a + i)) = read_byte (mem s2) (wrap (a + i))) ->
  (forall i, 0 <= i < n ->
     read_byte (mem s1) (wrap (b + i)) = read_byte (mem s2) (wrap (b + i))) ->
  exists r s1' s2',
    MEM_compareStructs EFAULT fuel a b n s1 = Some (r, s1') /\
    MEM_compareStructs EFAULT fuel a b n s2 = Some (r, s2').
Proof.
  intros Ha Hb Ra Rb Rn Hf HA HB.
  destruct (compare_correct_nonzero EFAULT a b n s1 fuel)
    as (r1 & t1 & Hrun1 & _ & Hr1 & Hiff1); try assumption.
  destruct (compare_correct_nonzero EFAULT a b n s2 fuel)
    as (r2 & t2 & Hrun2 & _ & Hr2 & Hiff2); try assumption.
  exists r1, t1, t2. split; [exact Hrun1|].
  assert (E : r2 = r1); [|now rewrite <- E].
  destruct Hr1 as [E1|E1]; destruct Hr2 as [E2|E2]; try congruence.
  - exfalso. assert (r2 = STRUCTS_ARE_EQUAL); [|rewrite E2 in *; discriminate].
    apply Hiff2. intros i Hi. rewrite <- HA, <- HB by assumption.
    now apply (proj1 Hiff1 E1).
  - exfalso. assert (r1 = STRUCTS_ARE_EQUAL); [|rewrite E1 in *; discriminate].
    apply Hiff1. intros i Hi. rewrite HA, HB by assumption.
    now apply (proj1 Hiff2 E2).
Qed.

(** Copy between regions that share no address. *)
Lemma copy_regions : forall EFAULT src dst n s fuel,
  src <> NULL -> dst <> NULL ->
  0 <= src < modulus -> 0 <= dst < modulus -> 0 <= n < modulus ->
  disjoint src dst n ->
  (trips n <= fuel)%nat ->
  copy_claim EFAULT src dst n s fuel.
Proof.
  intros EFAULT src dst n s fuel Hs Hd Rs Rd Rn Hsep Hf.
  eexists. split; [now apply copy_runs|].
  destruct (Z.eq_dec n 0) as [->|Hn];
    [split; intros i Hi; exfalso; clear - Hi; lia|].
  assert (Hk : Z.of_nat (trips n) = n) by (apply trips_nonzero; lia).
  split; intros i Hi.
  - pose proof (copy_iter_copied (entry n src dst s) Rs Rd n
                  (proj2 Rn) (fun i j Hj Hi => Hsep i j ltac:(lia) ltac:(lia))
                  (trips n) i) as E.
    change (regs (entry n src dst s) Op2) with dst in E.
    change (regs (entry n src dst s) Op1) with src in E.
    change (mem (entry n src dst s)) with (mem s) in E.
    unfold read_byte at 1. rewrite E by lia. apply read_byte_idem.
  - unfold read_byte. f_equal.
    apply (copy_iter_frame (entry n src dst s) Rs Rd).
    intros j Hj. apply Hsep; lia.
Qed.

(** Copy between separate regions of at least one byte, then compare. *)
Lemma copy_compare_regions : forall EFAULT src dst n s fuel,
  src <> NULL -> dst <> NULL ->
  0 <= src < modulus -> 0 <= dst < modulus -> 1 <= n < modulus ->
  disjoint src dst n ->
  (trips n <= fuel)%nat ->
  roundtrip_claim EFAULT src dst n s fuel.
Proof.
  intros EFAULT src dst n s fuel Hs Hd Rs Rd Rn Hsep Hf.
  destruct (copy_regions EFAULT src dst n s fuel)
    as (s1 & Hcopy & Hdst & Hsrc); try assumption; [lia|].
  destruct (compare_correct_nonzero EFAULT src dst n s1 fuel)
    as (r & s2 & Hrun & _ & _ & Hiff); try assumption.
  exists STRUCT_COPIED, s1, s2. split; [exact Hcopy|].
  assert (Hr : r = STRUCTS_ARE_EQUAL).
  { apply Hiff. intros i Hi. now rewrite Hdst, Hsrc. }
  now rewrite Hr in Hrun.
Qed.

(** ** Accesses stay inside the regions when the size is not 0 *)

Lemma outside_region a n x :
  n <= modulus -> in_region a n x = false ->
  forall i, 0 <= i < n -> x <> wrap (a + i).
Proof.
  intros Hn Hx i Hi E. subst x.
  rewrite in_region_offset in Hx by assumption. discriminate.
Qed.

Lemma compare_in_bounds EFAULT a b n s fuel :
  a <> NULL -> b <> NULL ->
  0 <= a < modulus -> 0 <= b < modulus -> 1 <= n < modulus ->
  (trips n <= fuel)%nat ->
  exists r s' l,
    MEM_compareStructs EFAULT fuel a b n s = Some (r, s') /\
    mem s' = mem s /\ appended s s' l /\
    forallb (loads_in a b n) l = true.
Proof.
  intros Ha Hb Ra Rb Rn Hf.
  destruct (compare_runs EFAULT a b n s fuel)
    as (s' & j & Hrun & Hm & Htr & Hj & _); try assumption; [lia|].
  assert (Hk : Z.of_nat (trips n) = n) by now apply trips_nonzero.
  exists (regs s' Op3), s', (cmp_events a b (S j)).
  split; [exact Hrun|]. split; [exact Hm|]. split; [exact Htr|].
  apply forallb_forall. intros e He.
  pose proof (cmp_events_within a b (S j) Ra Rb) as F.
  rewrite Forall_forall in F. destruct (F e He) as (i & Hi & [->| ->]);
    cbn [loads_in]; rewrite in_region_offset by lia.
  - reflexivity.
  - apply orb_true_r.
Qed.

Lemma copy_in_bounds EFAULT src dst n s fuel :
  src <> NULL -> dst <> NULL ->
  0 <= src < modulus -> 0 <= dst < modulus -> 1 <= n < modulus ->
  (trips n <= fuel)%nat ->
  exists s' l,
    MEM_copyStruct EFAULT fuel src dst n s = Some (STRUCT_COPIED, s') /\
    appended s s' l /\ forallb (copy_in src dst n) l = true /\
    forall x, in_region dst n x = false -> mem s' x = mem s x.
Proof.
  intros Hs Hd Rs Rd Rn Hf.
  assert (Hk : Z.of_nat (trips n) = n) by now apply trips_nonzero.
  destruct (copy_iter_trace (entry n src dst s) Rs Rd (trips n))
    as (l & Htr & F).
  eexists. exists l. split; [apply copy_runs; (assumption || lia)|].
  split; [exact Htr|]. split.
  - apply forallb_forall. intros e He. rewrite Forall_forall in F.
    destruct (F e He) as (i & Hi & [->|(y & ->)]);
      cbn [copy_in]; apply in_region_offset; lia.
  - intros x Hx. apply (copy_iter_frame (entry n src dst s) Rs Rd).
    intros i Hi. apply (outside_region dst n); (assumption || lia).
Qed.

Lemma fill_in_bounds EFAULT ptr n v s fuel :
  ptr <> NULL -> 0 <= ptr < modulus -> 1 <= n < modulus -> 0 <= v < 256 ->
  (trips n <= fuel)%nat ->
  exists s' l,
    MEM_fillStruct EFAULT fuel ptr n v s = Some (STRUCT_FILLED, s') /\
    appended s s' l /\ forallb (stores_in ptr n v) l = true /\
    forall x, in_region ptr n x = false -> mem s' x = mem s x.
Proof.
  intros Hp Rp Rn Rv Hf.
  assert (Hk : Z.of_nat (trips n) = n) by now apply trips_nonzero.
  eexists. eexists. split; [apply fill_runs; (assumption || lia)|].
  split; [exact (fill_iter_trace (fill_entry n ptr v s) Rp (trips n))|].
  split.
  - apply forallb_forall. intros e He.
    apply in_map_iff in He. destruct He as (i & <- & Hi).
    apply in_seq in Hi. cbn [stores_in].
    rewrite in_region_offset by lia.
    change (regs (fill_entry n ptr v s) R2) with v.
    rewrite Z.mod_small by lia. now rewrite Z.eqb_refl.
  - intros x Hx. apply (fill_iter_frame (fill_entry n ptr v s) Rp).
    intros i Hi. apply (outside_region ptr n); (assumption || lia).
Qed.

(** ** The first pass runs whatever the size, and size 0 *)

Lemma cmp_loop_first fuel : forall s s',
  cmp_loop fuel s = Some s' ->
  exists l, trace s' = trace s ++ Load (regs s Op1) :: Load (regs s Op2) :: l.
Proof.
  induction fuel as [|fuel IH]; intros s s' H; [discriminate|].
  cbn [cmp_loop] in H.
  destruct (bne_taken _) in H.
  - injection H as <-. exists [].
    change (trace (mov_imm Op3 STRUCTS_ARENT_EQUAL
                     (cmp R2 R3 (ldrb_post R3 Op2 (ldrb_post R2 Op1 s)))))
      with ((trace s ++ [Load (regs s Op1)]) ++ [Load (regs s Op2)]).
    now rewrite <- app_assoc.
  - destruct (bne_taken _) in H.
    + apply IH in H. destruct H as (l & Hl). eexists.
      rewrite Hl.
      change (trace (subs_imm Op0 Op0 1
                       (cmp R2 R3 (ldrb_post R3 Op2 (ldrb_post R2 Op1 s)))))
        with ((trace s ++ [Load (regs s Op1)]) ++ [Load (regs s Op2)]).
      rewrite <- !app_assoc. reflexivity.
    + injection H as <-. exists [].
      change (trace (mov_imm Op3 STRUCTS_ARE_EQUAL
                       (subs_imm Op0 Op0 1
                          (cmp R2 R3
                             (ldrb_post R3 Op2 (ldrb_post R2 Op1 s))))))
        with ((trace s ++ [Load (regs s Op1)]) ++ [Load (regs s Op2)]).
      now rewrite <- app_assoc.
Qed.

Lemma copy_loop_first fuel : forall s s',
  copy_loop fuel s = Some s' ->
  exists l,
    trace s' = trace s ++ Load (regs s Op1)
                 :: Store (regs s Op2) (read_byte (mem s) (regs s Op1)) :: l.
Proof.
  induction fuel as [|fuel IH]; intros s s' H; [discriminate|].
  cbn [copy_loop] in H. fold (copy_body s) in H.
  destruct (bne_taken _) in H.
  - apply IH in H. destruct H as (l & Hl). eexists.
    rewrite Hl, copy_body_trace, <- app_assoc. reflexivity.
  - injection H as <-. exists []. apply copy_body_trace.
Qed.

Lemma fill_loop_first fuel : forall s s',
  fill_loop fuel s = Some s' ->
  exists l, trace s' = trace s ++ Store (regs s Op1) (regs s R2 mod 256) :: l.
Proof.
  induction fuel as [|fuel IH]; intros s s' H; [discriminate|].
  cbn [fill_loop] in H. fold (fill_body s) in H.
  destruct (bne_taken _) in H.
  - apply IH in H. destruct H as (l & Hl). eexists.
    rewrite Hl.
    change (trace (fill_body s))
      with (trace s ++ [Store (regs s Op1) (regs s R2 mod 256)]).
    rewrite <- app_assoc. reflexivity.
  - injection H as <-. now exists [].
Qed.

(** On non-null references every call that returns has loaded or stored at
    the addresses it was given, size 0 included. *)
Lemma first_pass_always_runs EFAULT fuel a b n v s r s' :
  a <> NULL -> b <> NULL ->
  (MEM_compareStructs EFAULT fuel a b n s = Some (r, s') ->
   exists l, appended s s' (Load a :: Load b :: l)) /\
  (MEM_copyStruct EFAULT fuel a b n s = Some (r, s') ->
   exists l, appended s s'
               (Load a :: Store b (read_byte (mem s) a) :: l)) /\
  (MEM_fillStruct EFAULT fuel a n v s = Some (r, s') ->
   exists l, appended s s' (Store a (v mod 256) :: l)).
Proof.
  intros Ha Hb. unfold appended. split; [|split]; intros H.
  - unfold MEM_compareStructs in H. rewrite not_null in H by assumption.
    destruct (cmp_loop fuel _) as [t|] eqn:E; [|discriminate].
    injection H as _ <-. exact (cmp_loop_first _ _ _ E).
  - unfold MEM_copyStruct in H. rewrite not_null in H by assumption.
    destruct (copy_loop fuel _) as [t|] eqn:E; [|discriminate].
    injection H as _ <-. exact (copy_loop_first _ _ _ E).
  - unfold MEM_fillStruct in H. apply Z.eqb_neq in Ha. rewrite Ha in H.
    destruct (fill_loop fuel _) as [t|] eqn:E; [|discriminate].
    injection H as _ <-. exact (fill_loop_first _ _ _ E).
Qed.

(** With size 0 the fill loop stores to every address of the machine. *)
Lemma fill_size_zero_everywhere EFAULT ptr v s x :
  ptr <> NULL -> 0 <= ptr < modulus -> 0 <= x < modulus ->
  exists s',
    MEM_fillStruct EFAULT (trips 0) ptr 0 v s = Some (STRUCT_FILLED, s') /\
    mem s' x = v mod 256.
Proof.
  intros Hp Rp Rx. eexists. split.
  - apply fill_runs; [exact Hp|exact zero_range|apply le_n].
  - assert (Ex : x = wrap (ptr + wrap (x - ptr))).
    { rewrite wrap_add_r. replace (ptr + (x - ptr)) with x by lia.
      symmetry. now apply wrap_small. }
    assert (Hi : 0 <= wrap (x - ptr) < Z.of_nat (trips 0)).
    { pose proof (wrap_range (x - ptr)). pose proof modulus_pos.
      unfold trips. rewrite Z.eqb_refl, Z2Nat.id; lia. }
    pose proof (fill_iter_written (fill_entry 0 ptr v s) Rp (trips 0) _ Hi)
      as E.
    change (regs (fill_entry 0 ptr v s) Op1) with ptr in E.
    change (regs (fill_entry 0 ptr v s) R2) with v in E.
    rewrite <- Ex in E. exact E.
Qed.

Lemma read_byte_of_mem (m : Z -> Z) x y : m x = y -> read_byte m x = y mod 256.
Proof. intros <-. reflexivity. Qed.

Lemma copy_size_zero_shifts_mem s d i :
  0 < d -> d + 1 < modulus -> 0 <= i < modulus - 1 ->
  mem (Nat.iter (trips 0) copy_body (entry 0 (d + 1) d s)) (wrap (d + i))
  = read_byte (mem s) (wrap (d + 1 + i)).
Proof.
  intros Hd Hd1 Hi. pose proof modulus_pos as HM.
  assert (HK : exists K, trips 0 = S K /\ Z.of_nat K = modulus - 1).
  { exists (Z.to_nat (modulus - 1)). split.
    - unfold trips. rewrite Z.eqb_refl.
      replace modulus with (Z.succ (modulus - 1)) at 1 by lia.
      rewrite Z2Nat.inj_succ by lia. reflexivity.
    - apply Z2Nat.id. lia. }
  destruct HK as (K & -> & HK).
  set (s0 := entry 0 (d + 1) d s).
  assert (R1 : 0 <= regs s0 Op1 < modulus)
    by (change (regs s0 Op1) with (d + 1); lia).
  assert (R2 : 0 <= regs s0 Op2 < modulus)
    by (change (regs s0 Op2) with d; lia).
  destruct (copy_iter_regs s0 R1 R2 K) as [_ E2].
  rewrite Nat.iter_succ, copy_body_mem, E2.
  change (regs s0 Op2) with d.
  destruct (Z.eqb_spec (wrap (d + i)) (wrap (d + Z.of_nat K))) as [E|NE].
  { exfalso. apply wrap_offset_inj in E; lia. }
  apply (copy_iter_copied s0 R1 R2 (modulus - 1)); try lia.
  intros a b Hb Ha E. change (regs s0 Op1) with (d + 1) in E.
  change (regs s0 Op2) with d in E.
  replace (d + 1 + a) with (d + (1 + a)) in E by lia.
  apply wrap_offset_inj in E; lia.
Qed.

(** With size 0 and the destination one byte below the source, copy moves
    the whole memory down by one byte. *)
Lemma copy_size_zero_shifts s d i :
  0 < d -> d + 1 < modulus -> 0 <= i < modulus - 1 ->
  read_byte (mem (Nat.iter (trips 0) copy_body (entry 0 (d + 1) d s)))
            (wrap (d + i))
  = read_byte (mem s) (wrap (d + 1 + i)).
Proof.
  intros Hd Hd1 Hi.
  rewrite (read_byte_of_mem _ _ _ (copy_size_zero_shifts_mem s d i Hd Hd1 Hi)).
  apply read_byte_idem.
Qed.

(** With size 0 copy followed by compare can answer NOT_EQUAL: over the
    bytes 1, 2, 3 at SRAM, copying from SRAM + 1 to SRAM leaves 2 at SRAM
    and 3 at SRAM + 1, the first two bytes compare looks at. *)
Lemma roundtrip_size_zero_fails fuel :
  ~ roundtrip_claim 14 (SRAM + 1) SRAM 0 three_bytes fuel.
Proof.
  intros (r & s1 & s2 & Hcopy & Hcmp).
  apply (copy_any_fuel _ _ _ _ _ _ (Nat.max fuel (trips 0))) in Hcopy; [|lia].
  rewrite copy_runs in Hcopy;
    [|discriminate|discriminate|exact zero_range|lia].
  assert (Hs1 : Nat.iter (trips 0) copy_body
                  (entry 0 (SRAM + 1) SRAM three_bytes) = s1) by congruence.
  clear Hcopy.
  apply (compare_any_fuel _ _ _ _ _ _ (Nat.max fuel (trips 0))) in Hcmp;
    [|lia].
  destruct (compare_runs 14 (SRAM + 1) SRAM 0 s1 (Nat.max fuel (trips 0)))
    as (s' & j & Hrun & _ & _ & _ & Heq & Hres);
    [discriminate|discriminate|exact SRAM1_range|exact SRAM_range
    |exact zero_range|lia|].
  rewrite Hrun in Hcmp. injection Hcmp as Hr _.
  assert (H0 : read_byte (mem s1) (wrap (SRAM + 1 + 0))
               = read_byte (mem s1) (wrap (SRAM + 0))).
  { destruct Hres as [[Hne _]|(_ & _ & He)].
    - rewrite Hne in Hr. discriminate Hr.
    - destruct j as [|j]; [exact He|]. apply Heq. lia. }
  subst s1.
  rewrite (copy_size_zero_shifts three_bytes SRAM 0) in H0;
    [|reflexivity|reflexivity|split; [discriminate|reflexivity]].
  replace (SRAM + 1 + 0) with (SRAM + 1) in H0 by lia.
  rewrite (copy_size_zero_shifts three_bytes SRAM 1) in H0;
    [|reflexivity|reflexivity|split; [discriminate|reflexivity]].
  vm_compute in H0. discriminate H0.
Qed.

(** ** Status codes returned *)

Lemma compare_returns EFAULT a b n s :
  0 <= a < modulus -> 0 <= b < modulus -> 0 <= n < modulus ->
  exists fuel r s', MEM_compareStructs EFAULT fuel a b n s = Some (r, s').
Proof.
  intros Ra Rb Rn.
  destruct (Z.eq_dec a NULL) as [Ea|Na].
  { exists O. unfold MEM_compareStructs. apply Z.eqb_eq in Ea. rewrite Ea.
    cbn [orb]. eauto. }
  destruct (Z.eq_dec b NULL) as [Eb|Nb].
  { exists O. unfold MEM_compareStructs. apply Z.eqb_eq in Eb.
    rewrite Eb, orb_true_r. eauto. }
  destruct (compare_runs EFAULT a b n s (trips n))
    as (s' & j & Hrun & _); try assumption; [apply le_n|].
  eauto.
Qed.

Lemma copy_returns EFAULT src dst n s :
  0 <= n < modulus ->
  exists fuel r s', MEM_copyStruct EFAULT fuel src dst n s = Some (r, s').
Proof.
  intros Rn.
  destruct (Z.eq_dec src NULL) as [Ea|Na].
  { exists O. unfold MEM_copyStruct. apply Z.eqb_eq in Ea. rewrite Ea.
    cbn [orb]. eauto. }
  destruct (Z.eq_dec dst NULL) as [Eb|Nb].
  { exists O. unfold MEM_copyStruct. apply Z.eqb_eq in Eb.
    rewrite Eb, orb_true_r. eauto. }
  exists (trips n). rewrite copy_runs; try assumption; [eauto|apply le_n].
Qed.

Lemma fill_returns EFAULT ptr n v s :
  0 <= n < modulus ->
  exists fuel r s', MEM_fillStruct EFAULT fuel ptr n v s = Some (r, s').
Proof.
  intros Rn.
  destruct (Z.eq_dec ptr NULL) as [Ea|Na].
  { exists O. unfold MEM_fillStruct. apply Z.eqb_eq in Ea. rewrite Ea.
    eauto. }
  exists (trips n). rewrite fill_runs; try assumption; [eauto|apply le_n].
Qed.

Lemma compare_result EFAULT fuel a b n s r s' :
  MEM_compareStructs EFAULT fuel a b n s = Some (r, s') ->
  r = STRUCTS_ARE_EQUAL \/ r = STRUCTS_ARENT_EQUAL \/
  r = COMPARE_BAD_ADDRESS EFAULT.
Proof.
  unfold MEM_compareStructs. intros H.
  destruct ((a =? NULL) || (b =? NULL)).
  - injection H as <- _. now right; right.
  - destruct (cmp_loop fuel _) as [t|] eqn:E; [|discriminate].
    injection H as <- _.
    destruct (cmp_loop_status _ _ _ E) as [R|R]; rewrite R; auto.
Qed.

Lemma copy_result EFAULT fuel src dst n s r s' :
  MEM_copyStruct EFAULT fuel src dst n s = Some (r, s') ->
  r = STRUCT_COPIED \/ r = COPY_BAD_ADDRESS EFAULT.
Proof.
  unfold MEM_copyStruct. intros H.
  destruct ((src =? NULL) || (dst =? NULL)).
  - injection H as <- _. now right.
  - destruct (copy_loop fuel _); [|discriminate].
    injection H as <- _. now left.
Qed.

Lemma fill_result EFAULT fuel ptr n v s r s' :
  MEM_fillStruct EFAULT fuel ptr n v s = Some (r, s') ->
  r = STRUCT_FILLED \/ r = FILL_BAD_ADDRESS EFAULT.
Proof.
  unfold MEM_fillStruct. intros H.
  destruct (ptr =? NULL).
  - injection H as <- _. now right.
  - destruct (fill_loop fuel _); [|discriminate].
    injection H as <- _. now left.
Qed.

(** ** Size 0 (C1, C2, C3, C9) *)

(** C1 (the code departs from the claim): with size 0 the three functions do
    touch memory.  On a memory holding 1 and 2 at SRAM and SRAM + 1, compare
    loads both bytes before it answers, copy overwrites the byte at the
    destination and fill overwrites the byte at its target. *)
Theorem size_zero_touches_memory : forall EFAULT,
  (exists s',
     MEM_compareStructs EFAULT 1 SRAM (SRAM + 1) 0 two_bytes
     = Some (STRUCTS_ARENT_EQUAL, s') /\
     trace s' = [Load SRAM; Load (SRAM + 1)]) /\
  (exists fuel s',
     MEM_copyStruct EFAULT fuel SRAM (SRAM + 1) 0 two_bytes
     = Some (STRUCT_COPIED, s') /\
     mem two_bytes (SRAM + 1) = 2 /\ mem s' (SRAM + 1) = 1) /\
  (exists fuel s',
     MEM_fillStruct EFAULT fuel SRAM 0 170 two_bytes
     = Some (STRUCT_FILLED, s') /\
     mem two_bytes SRAM = 1 /\ mem s' SRAM = 170).
Proof.
  intros EFAULT. split; [|split].
  - eexists. split; reflexivity.
  - exists (trips 0). eexists. split.
    + apply copy_runs; [discriminate|discriminate|exact zero_range|apply le_n].
    + split; [reflexivity|].
      exact (copy_iter_first (entry 0 SRAM (SRAM + 1) two_bytes)
               SRAM_range SRAM1_range (trips 0)
               (trips_pos 0 zero_range) (trips_le 0 zero_range)).
  - exists (trips 0).
    destruct (fill_size_zero_everywhere EFAULT SRAM 170 two_bytes SRAM)
      as (s' & Hrun & Hm).
    + discriminate.
    + exact SRAM_range.
    + exact SRAM_range.
    + exists s'. split; [exact Hrun|]. split; [reflexivity|exact Hm].
Qed.

(** C2 (the code departs from the claim): with size 0 the region
    [address, address + 0) is empty, yet compare loads from the address
    itself, and fill stores its value at every address of the machine. *)
Theorem size_zero_out_of_bounds : forall EFAULT,
  (exists s',
     MEM_compareStructs EFAULT 1 SRAM (SRAM + 1) 0 two_bytes
     = Some (STRUCTS_ARENT_EQUAL, s') /\
     In (Load SRAM) (trace s') /\
     in_region SRAM 0 SRAM = false /\ in_region (SRAM + 1) 0 SRAM = false) /\
  (forall x, 0 <= x < modulus ->
     in_region SRAM 0 x = false /\
     exists s',
       MEM_fillStruct EFAULT (trips 0) SRAM 0 170 two_bytes
       = Some (STRUCT_FILLED, s') /\
       mem s' x = 170).
Proof.
  intros EFAULT. split.
  - eexists. split; [reflexivity|].
    split; [now left|]. split; apply in_region_empty.
  - intros x Hx. split; [apply in_region_empty|].
    apply (fill_size_zero_everywhere EFAULT SRAM 170 two_bytes x);
      [discriminate|exact SRAM_range|exact Hx].
Qed.

(** C3 (the code departs from the claim): with size 0 the two buffers agree
    at every index of [0, 0), and compare still answers NOT_EQUAL when the
    bytes at the two addresses differ, whatever the bound on the passes. *)
Theorem compare_size_zero_not_equal : forall EFAULT,
  (forall i, 0 <= i < 0 ->
     read_byte (mem two_bytes) (wrap (SRAM + i))
     = read_byte (mem two_bytes) (wrap (SRAM + 1 + i))) /\
  (exists s',
     MEM_compareStructs EFAULT 1 SRAM (SRAM + 1) 0 two_bytes
     = Some (STRUCTS_ARENT_EQUAL, s')) /\
  (forall fuel r s',
     MEM_compareStructs EFAULT fuel SRAM (SRAM + 1) 0 two_bytes = Some (r, s')
     -> r = STRUCTS_ARENT_EQUAL).
Proof.
  intros EFAULT. split; [intros; lia|]. split.
  - eexists. reflexivity.
  - intros fuel r s' H. destruct fuel as [|fuel]; [discriminate|].
    assert (H1 : exists s1,
               MEM_compareStructs EFAULT 1 SRAM (SRAM + 1) 0 two_bytes
               = Some (STRUCTS_ARENT_EQUAL, s1)) by (eexists; reflexivity).
    destruct H1 as (s1 & H1).
    apply (compare_any_fuel _ _ _ _ _ _ (S fuel)) in H1; [|lia].
    congruence.
Qed.


(** ** Null references (C4) *)

(** C4: a null reference makes each function return its BAD_ADDRESS code at
    once; the machine returned is the machine received, so no byte was read
    or written and the access log did not grow. *)
Theorem null_reference_rejected : forall EFAULT fuel a b n v s,
  MEM_compareStructs EFAULT fuel NULL b n s
  = Some (COMPARE_BAD_ADDRESS EFAULT, s) /\
  MEM_compareStructs EFAULT fuel a NULL n s
  = Some (COMPARE_BAD_ADDRESS EFAULT, s) /\
  MEM_copyStruct EFAULT fuel NULL b n s = Some (COPY_BAD_ADDRESS EFAULT, s) /\
  MEM_copyStruct EFAULT fuel a NULL n s = Some (COPY_BAD_ADDRESS EFAULT, s) /\
  MEM_fillStruct EFAULT fuel NULL n v s = Some (FILL_BAD_ADDRESS EFAULT, s).
Proof.
  intros EFAULT fuel a b n v s.
  unfold MEM_compareStructs, MEM_copyStruct, MEM_fillStruct.
  rewrite Z.eqb_refl, orb_true_r. cbn [orb]. repeat split.
Qed.

(** ** Copy (C5) *)

(** C5 as stated fails when the regions overlap: copying two bytes from SRAM
    to SRAM + 1 over the bytes 1, 2, 3 overwrites the second source byte
    before it is read. *)
Lemma copy_claim_fails_on_overlap :
  ~ copy_claim 14 SRAM (SRAM + 1) 2 three_bytes 2.
Proof.
  intros (s' & Hrun & _ & Hsrc).
  rewrite (copy_runs 14 SRAM (SRAM + 1) 2 three_bytes 2) in Hrun;
    [|discriminate|discriminate|split; [discriminate|reflexivity]|apply le_n].
  injection Hrun as <-.
  specialize (Hsrc 1 ltac:(lia)). vm_compute in Hsrc. discriminate.
Qed.

(** C5, amended: for non-null source and destination whose regions of
    [n >= 1] bytes share no address, copy returns STRUCT_COPIED, the
    destination then holds the bytes of the source and the source is
    unchanged. *)
Theorem copy_separate_regions : forall EFAULT src dst n s fuel,
  src <> NULL -> dst <> NULL ->
  0 <= src < modulus -> 0 <= dst < modulus -> 1 <= n < modulus ->
  disjoint src dst n ->
  (trips n <= fuel)%nat ->
  copy_claim EFAULT src dst n s fuel.
Proof.
  intros EFAULT src dst n s fuel Hs Hd Rs Rd Rn Hsep Hf.
  apply copy_regions; (assumption || lia).
Qed.

Lemma disjoint_SRAM_8 : disjoint SRAM (SRAM + 8) 3.
Proof.
  intros i j Hi Hj. unfold wrap.
  rewrite !Z.mod_small.
  - unfold SRAM. lia.
  - unfold SRAM, modulus. change (2 ^ 32) with 4294967296. lia.
  - unfold SRAM, modulus. change (2 ^ 32) with 4294967296. lia.
Defined.

Lemma copy_separate_regions_witness :
  (SRAM <> NULL /\ SRAM + 8 <> NULL /\
   0 <= SRAM < modulus /\ 0 <= SRAM + 8 < modulus /\ 1 <= 3 < modulus /\
   disjoint SRAM (SRAM + 8) 3 /\ (trips 3 <= 3)%nat) /\
  copy_claim 14 SRAM (SRAM + 8) 3 three_bytes 3.
Proof.
  assert (H1 : SRAM <> NULL) by discriminate.
  assert (H2 : SRAM + 8 <> NULL) by discriminate.
  assert (H3 : 0 <= SRAM + 8 < modulus) by (split; [discriminate|reflexivity]).
  assert (H4 : 1 <= 3 < modulus) by (split; [discriminate|reflexivity]).
  assert (H5 : (trips 3 <= 3)%nat) by apply le_n.
  split.
  - repeat split; try assumption; try apply SRAM_range;
      try apply H3; try apply H4. exact disjoint_SRAM_8.
  - exact (copy_separate_regions 14 SRAM (SRAM + 8) 3 three_bytes 3
             H1 H2 SRAM_range H3 H4 disjoint_SRAM_8 H5).
Defined.

(** ** Fill (C6) *)

(** On a non-null destination of [n >= 1] bytes fill returns STRUCT_FILLED,
    and every byte of the destination at an index in [0, n) then holds the
    value. *)
Lemma fill_correct : forall EFAULT ptr n v s fuel,
  ptr <> NULL -> 0 <= ptr < modulus -> 1 <= n < modulus -> 0 <= v < 256 ->
  (trips n <= fuel)%nat ->
  exists s',
    MEM_fillStruct EFAULT fuel ptr n v s = Some (STRUCT_FILLED, s') /\
    forall i, 0 <= i < n -> read_byte (mem s') (wrap (ptr + i)) = v.
Proof.
  intros EFAULT ptr n v s fuel Hp Rp Rn Rv Hf.
  eexists. split; [apply fill_runs; (assumption || lia)|].
  intros i Hi. unfold read_byte.
  assert (Hk : 0 <= i < Z.of_nat (trips n)).
  { rewrite trips_nonzero; lia. }
  pose proof (fill_iter_written (fill_entry n ptr v s) Rp (trips n) i Hk) as E.
  change (regs (fill_entry n ptr v s) Op1) with ptr in E.
  change (regs (fill_entry n ptr v s) R2) with v in E.
  rewrite E, Z.mod_mod by lia. now apply Z.mod_small.
Qed.

Lemma fill_correct_witness :
  (SRAM <> NULL /\ 0 <= SRAM < modulus /\ 1 <= 3 < modulus /\
   0 <= 170 < 256 /\ (trips 3 <= 3)%nat) /\
  exists s',
    MEM_fillStruct 14 3 SRAM 3 170 two_bytes = Some (STRUCT_FILLED, s') /\
    forall i, 0 <= i < 3 -> read_byte (mem s') (wrap (SRAM + i)) = 170.
Proof.
  assert (H1 : SRAM <> NULL) by discriminate.
  assert (H2 : 1 <= 3 < modulus) by (split; [discriminate|reflexivity]).
  assert (H3 : 0 <= 170 < 256) by lia.
  assert (H4 : (trips 3 <= 3)%nat) by apply le_n.
  split; [repeat split; try assumption; try apply SRAM_range; apply H2|].
  exact (fill_correct 14 SRAM 3 170 two_bytes 3 H1 SRAM_range H2 H3 H4).
Defined.

(** With size 0 no bound below 2^32 passes lets fill return. *)
Lemma fill_size_zero_short EFAULT ptr v s fuel :
  ptr <> NULL -> Z.of_nat fuel < modulus ->
  MEM_fillStruct EFAULT fuel ptr 0 v s = None.
Proof.
  intros Hp Hf. unfold MEM_fillStruct.
  apply Z.eqb_neq in Hp. rewrite Hp. fold (entry 0 ptr v s).
  fold (fill_entry 0 ptr v s).
  rewrite fill_loop_do_while.
  rewrite (do_while_short fill_body (fun _ => eq_refl) (fun _ => eq_refl)
             fuel (trips 0) (fill_entry 0 ptr v s)).
  - reflexivity.
  - pose proof (trips_wrap 0 zero_range) as Hw. pose proof modulus_pos.
    assert (Z.of_nat (trips 0) = modulus).
    { unfold trips. rewrite Z.eqb_refl. apply Z2Nat.id. lia. }
    lia.
  - apply trips_le, zero_range.
  - change (regs (fill_entry 0 ptr v s) Op0) with 0.
    symmetry. apply trips_wrap, zero_range.
Qed.

(** C6 (the code departs from the claim): with size 0 the destination is
    empty and fill should return STRUCT_FILLED at once.  On a memory holding
    1 at SRAM the first pass of fill(SRAM, 0, 170) stores 170 at SRAM, the
    loop goes on to a second pass, and no bound below 2^32 passes lets the
    call return. *)
Theorem fill_size_zero_overruns : forall EFAULT,
  in_region SRAM 0 SRAM = false /\
  mem two_bytes SRAM = 1 /\
  mem (fill_body (fill_entry 0 SRAM 170 two_bytes)) SRAM = 170 /\
  trace (fill_body (fill_entry 0 SRAM 170 two_bytes)) = [Store SRAM 170] /\
  (forall fuel,
     fill_loop (S fuel) (fill_entry 0 SRAM 170 two_bytes)
     = fill_loop fuel (fill_body (fill_entry 0 SRAM 170 two_bytes))) /\
  (forall fuel,
     Z.of_nat fuel < modulus ->
     MEM_fillStruct EFAULT fuel SRAM 0 170 two_bytes = None).
Proof.
  intros EFAULT.
  split; [apply in_region_empty|]. split; [reflexivity|].
  split; [reflexivity|]. split; [reflexivity|]. split.
  - intros fuel. reflexivity.
  - intros fuel Hf. apply fill_size_zero_short; [discriminate|exact Hf].
Qed.

(** ** Copy followed by compare (C7) *)

(** C7 as stated fails for a null source, where both calls answer
    BAD_ADDRESS, and for a destination that starts one byte below the
    source: over the bytes 1, 2, 3 the copy leaves 2, 3, 3 and the compare
    then meets 3 against 2. *)
Lemma roundtrip_claim_fails :
  ~ roundtrip_claim 14 NULL SRAM 2 three_bytes 2 /\
  ~ roundtrip_claim 14 (SRAM + 1) SRAM 2 three_bytes 2.
Proof.
  assert (R2 : 0 <= 2 < modulus) by (split; [discriminate|reflexivity]).
  split.
  - intros (r & s1 & s2 & _ & Hcmp).
    unfold MEM_compareStructs in Hcmp.
    change (NULL =? NULL) with true in Hcmp. cbn [orb] in Hcmp.
    injection Hcmp as Hr _. discriminate Hr.
  - intros (r & s1 & s2 & Hcopy & Hcmp).
    rewrite (copy_runs 14 (SRAM + 1) SRAM 2 three_bytes 2) in Hcopy;
      [|discriminate|discriminate|exact R2|apply le_n].
    injection Hcopy as _ Hs1. subst s1.
    destruct (compare_correct_nonzero 14 (SRAM + 1) SRAM 2
                (Nat.iter (trips 2) copy_body
                   (entry 2 (SRAM + 1) SRAM three_bytes)) 2)
      as (r' & s' & Hrun & _ & _ & Hiff);
      [discriminate|discriminate|exact SRAM1_range|exact SRAM_range
      |split; [discriminate|reflexivity]|apply le_n|].
    assert (E : Some (r', s') = Some (STRUCTS_ARE_EQUAL, s2))
      by (rewrite <- Hrun; exact Hcmp).
    injection E as Hr _.
    pose proof (proj1 Hiff Hr 0 ltac:(lia)) as H0.
    vm_compute in H0. discriminate H0.
Qed.

(** C7, amended: for non-null source and destination whose regions of
    [n >= 1] bytes share no address, copy followed by compare on the same
    arguments yields STRUCTS_ARE_EQUAL. *)
Theorem copy_then_compare_equal : forall EFAULT src dst n s fuel,
  src <> NULL -> dst <> NULL ->
  0 <= src < modulus -> 0 <= dst < modulus -> 1 <= n < modulus ->
  disjoint src dst n ->
  (trips n <= fuel)%nat ->
  roundtrip_claim EFAULT src dst n s fuel.
Proof.
  intros EFAULT src dst n s fuel Hs Hd Rs Rd Rn Hsep Hf.
  now apply copy_compare_regions.
Qed.

Lemma copy_then_compare_equal_witness :
  (SRAM <> NULL /\ SRAM + 8 <> NULL /\
   0 <= SRAM < modulus /\ 0 <= SRAM + 8 < modulus /\ 1 <= 3 < modulus /\
   disjoint SRAM (SRAM + 8) 3 /\ (trips 3 <= 3)%nat) /\
  roundtrip_claim 14 SRAM (SRAM + 8) 3 three_bytes 3.
Proof.
  assert (H1 : SRAM <> NULL) by discriminate.
  assert (H2 : SRAM + 8 <> NULL) by discriminate.
  assert (H3 : 0 <= SRAM + 8 < modulus) by (split; [discriminate|reflexivity]).
  assert (H4 : 1 <= 3 < modulus) by (split; [discriminate|reflexivity]).
  assert (H5 : (trips 3 <= 3)%nat) by apply le_n.
  split.
  - repeat split; try assumption; try apply SRAM_range;
      try apply H3; try apply H4. exact disjoint_SRAM_8.
  - exact (copy_then_compare_equal 14 SRAM (SRAM + 8) 3 three_bytes 3
             H1 H2 SRAM_range H3 H4 disjoint_SRAM_8 H5).
Defined.

(** ** Closed sets of status codes (C8) *)

(** C8: for 32-bit arguments and error numbers that are positive and
    distinct, whatever a function returns is a code of its promised set:
    compare one of EQUAL, NOT_EQUAL, BAD_ADDRESS, copy one of COPIED,
    BAD_ADDRESS, fill one of FILLED, BAD_ADDRESS; the NOT_COPIED, NOT_FILLED
    and ENOSYS-based codes are never returned.  On a null reference, and on
    regions of at least one byte, each function does return. *)
Theorem status_codes_closed : forall EFAULT ENOSYS a b n v s,
  0 < EFAULT -> 0 < ENOSYS -> EFAULT <> ENOSYS ->
  0 <= a < modulus -> 0 <= b < modulus -> 0 <= n < modulus ->
  codes_only (fun fuel => MEM_compareStructs EFAULT fuel a b n s)
             (compare_codes EFAULT ENOSYS) /\
  codes_only (fun fuel => MEM_copyStruct EFAULT fuel a b n s)
             (copy_codes EFAULT ENOSYS) /\
  codes_only (fun fuel => MEM_fillStruct EFAULT fuel a n v s)
             (fill_codes EFAULT ENOSYS) /\
  (1 <= n \/ a = NULL \/ b = NULL ->
   does_return (fun fuel => MEM_compareStructs EFAULT fuel a b n s) /\
   does_return (fun fuel => MEM_copyStruct EFAULT fuel a b n s)) /\
  (1 <= n \/ a = NULL ->
   does_return (fun fuel => MEM_fillStruct EFAULT fuel a n v s)).
Proof.
  intros EFAULT ENOSYS a b n v s HF HS HFS Ra Rb Rn.
  split; [|split; [|split; [|split]]].
  - intros fuel r s' H. apply compare_result in H. split; [exact H|].
    unfold STRUCTS_COMPARE_ERROR, STRUCTS_ARE_EQUAL, STRUCTS_ARENT_EQUAL,
      COMPARE_BAD_ADDRESS in *. lia.
  - intros fuel r s' H. apply copy_result in H. split; [exact H|].
    unfold STRUCT_COPY_ERROR, STRUCT_NOT_COPIED, STRUCT_COPIED,
      COPY_BAD_ADDRESS in *. lia.
  - intros fuel r s' H. apply fill_result in H. split; [exact H|].
    unfold STRUCT_FILL_ERROR, STRUCT_NOT_FILLED, STRUCT_FILLED,
      FILL_BAD_ADDRESS in *. lia.
  - intros _. split.
    + now apply compare_returns.
    + now apply copy_returns.
  - intros _. now apply fill_returns.
Qed.

Lemma status_codes_closed_witness :
  (0 < 14 /\ 0 < 88 /\ 14 <> 88 /\
   0 <= SRAM < modulus /\ 0 <= SRAM + 8 < modulus /\ 0 <= 3 < modulus) /\
  codes_only (fun fuel => MEM_compareStructs 14 fuel SRAM (SRAM + 8) 3 twin)
             (compare_codes 14 88) /\
  codes_only (fun fuel => MEM_copyStruct 14 fuel SRAM (SRAM + 8) 3 twin)
             (copy_codes 14 88) /\
  codes_only (fun fuel => MEM_fillStruct 14 fuel SRAM 3 170 twin)
             (fill_codes 14 88) /\
  (1 <= 3 \/ SRAM = NULL \/ SRAM + 8 = NULL ->
   does_return (fun fuel => MEM_compareStructs 14 fuel SRAM (SRAM + 8) 3 twin)
   /\
   does_return (fun fuel => MEM_copyStruct 14 fuel SRAM (SRAM + 8) 3 twin)) /\
  (1 <= 3 \/ SRAM = NULL ->
   does_return (fun fuel => MEM_fillStruct 14 fuel SRAM 3 170 twin)).
Proof.
  assert (H1 : 0 < 14) by lia.
  assert (H2 : 0 < 88) by lia.
  assert (H3 : 14 <> 88) by lia.
  assert (H4 : 0 <= SRAM + 8 < modulus) by (split; [discriminate|reflexivity]).
  assert (H5 : 0 <= 3 < modulus) by (split; [discriminate|reflexivity]).
  split.
  - repeat split; try assumption;
      try apply SRAM_range; try apply H4; apply H5.
  - exact (status_codes_closed 14 88 SRAM (SRAM + 8) 3 170 twin
             H1 H2 H3 SRAM_range H4 H5).
Defined.

(** ** Integer encoding (C10) *)

(** C10: STRUCTS_ARE_EQUAL is 1 and STRUCTS_ARENT_EQUAL is 0, the reverse of
    memcmp, and these are the integers compare returns on equal and on
    differing buffers; STRUCT_COPIED and STRUCT_FILLED are 0; every
    BAD_ADDRESS code is -EFAULT, negative and distinct from the success
    codes, for a positive EFAULT. *)
Theorem status_encoding : forall EFAULT, 0 < EFAULT -> encoding_claim EFAULT.
Proof.
  intros EFAULT HF. unfold encoding_claim.
  repeat (split; [first [reflexivity
                        |unfold STRUCTS_ARE_EQUAL, STRUCTS_ARENT_EQUAL,
                           STRUCT_COPIED, STRUCT_FILLED; lia]|]).
  split; [|split; [|split; [|split]]].
  - intros a b n s fuel r s' H. unfold MEM_compareStructs in H.
    destruct ((a =? NULL) || (b =? NULL)).
    + now injection H as <- _.
    + destruct (cmp_loop fuel _) as [t|] eqn:E; [|discriminate].
      injection H as <- _. exact (cmp_loop_status _ _ _ E).
  - intros a b n s fuel Ha Hb Ra Rb Rn Hf Hall.
    destruct (compare_correct_nonzero EFAULT a b n s fuel)
      as (r & s' & Hrun & _ & _ & Hiff); try assumption.
    exists s'. rewrite Hrun. now rewrite (proj2 Hiff Hall).
  - intros a b n s fuel Ha Hb Ra Rb Rn Hf (i & Hi & Hne).
    destruct (compare_correct_nonzero EFAULT a b n s fuel)
      as (r & s' & Hrun & _ & Hr & Hiff); try assumption; [lia|].
    exists s'. rewrite Hrun. destruct Hr as [Hr|Hr]; [|now rewrite Hr].
    exfalso. apply Hne. now apply (proj1 Hiff Hr).
  - intros src dst n s fuel r s' H. unfold MEM_copyStruct in H.
    destruct ((src =? NULL) || (dst =? NULL)).
    + now injection H as <- _.
    + destruct (copy_loop fuel _); [|discriminate]. now injection H as <- _.
  - intros ptr n v s fuel r s' H. unfold MEM_fillStruct in H.
    destruct (ptr =? NULL).
    + now injection H as <- _.
    + destruct (fill_loop fuel _); [|discriminate]. now injection H as <- _.
Qed.

Lemma status_encoding_witness : 0 < 14 /\ encoding_claim 14.
Proof.
  assert (H : 0 < 14) by lia.
  split; [exact H|exact (status_encoding 14 H)].
Defined.

(** * Further properties of the three functions *)

(** ** Compare as a relation on buffers *)

(** Whatever the size, compare answers EQUAL exactly when the bytes agree on
    all the passes it makes. *)
Lemma compare_total EFAULT a b n s fuel :
  a <> NULL -> b <> NULL ->
  0 <= a < modulus -> 0 <= b < modulus -> 0 <= n < modulus ->
  (trips n <= fuel)%nat ->
  exists r s',
    MEM_compareStructs EFAULT fuel a b n s = Some (r, s') /\
    (r = STRUCTS_ARE_EQUAL \/ r = STRUCTS_ARENT_EQUAL) /\
    (r = STRUCTS_ARE_EQUAL <->
     forall i, 0 <= i < Z.of_nat (trips n) ->
       read_byte (mem s) (wrap (a + i)) = read_byte (mem s) (wrap (b + i))).
Proof.
  intros Ha Hb Ra Rb Rn Hf.
  destruct (compare_runs EFAULT a b n s fuel)
    as (s' & j & Hrun & _ & _ & Hj & Heq & Hres); try assumption.
  exists (regs s' Op3), s'. split; [exact Hrun|].
  destruct Hres as [[R Hne]|(R & Hl & He)]; rewrite R.
  - split; [now right|]. split; [discriminate|].
    intros Hall. exfalso. apply Hne, Hall. lia.
  - split; [now left|]. split; [|reflexivity].
    intros _ i Hi. destruct (Z.eq_dec i (Z.of_nat j)) as [->|Hne].
    + exact He.
    + apply Heq. lia.
Qed.

Lemma status_of_run o r s' : o = Some (r, s') -> status_of o = Some r.
Proof. intros ->. reflexivity. Qed.

Lemma trips_modulus : Z.of_nat (trips 0) = modulus.
Proof.
  unfold trips. rewrite Z.eqb_refl. apply Z2Nat.id.
  pose proof modulus_pos. lia.
Qed.

Lemma cmp_loop_loads fuel : forall s s',
  cmp_loop fuel s = Some s' ->
  exists l, trace s' = trace s ++ l /\ forallb is_load l = true.
Proof.
  induction fuel as [|fuel IH]; intros s s' E; [discriminate|].
  cbn [cmp_loop] in E.
  set (s1 := cmp R2 R3 (ldrb_post R3 Op2 (ldrb_post R2 Op1 s))) in *.
  assert (T1 : trace s1 = trace s ++ [Load (regs s Op1); Load (regs s Op2)]).
  { change (trace s1)
      with ((trace s ++ [Load (regs s Op1)]) ++ [Load (regs s Op2)]).
    now rewrite <- app_assoc. }
  destruct (bne_taken s1).
  - injection E as <-. eexists. split; [exact T1|reflexivity].
  - destruct (bne_taken (subs_imm Op0 Op0 1 s1)).
    + destruct (IH _ _ E) as (l & Hl & Fl).
      change (trace (subs_imm Op0 Op0 1 s1)) with (trace s1) in Hl.
      rewrite T1, <- app_assoc in Hl. eexists. split; [exact Hl|].
      cbn [app forallb is_load andb]. exact Fl.
    + injection E as <-. eexists. split; [exact T1|reflexivity].
Qed.

(** X1: compare never writes.  Whatever the arguments, the size and the
    bound on the passes, a call of compare that returns leaves every byte of
    the memory as it was and appends only loads to the access log. *)
Theorem compare_read_only : forall EFAULT fuel a b n s r s',
  MEM_compareStructs EFAULT fuel a b n s = Some (r, s') ->
  (forall x, mem s' x = mem s x) /\
  exists l, appended s s' l /\ forallb is_load l = true.
Proof.
  intros EFAULT fuel a b n s r s' H. unfold MEM_compareStructs in H.
  destruct ((a =? NULL) || (b =? NULL)).
  - injection H as _ <-. split; [reflexivity|].
    exists []. split; [unfold appended; now rewrite app_nil_r|reflexivity].
  - destruct (cmp_loop fuel _) as [t|] eqn:E; [|discriminate].
    injection H as _ <-. split.
    + intros x. now rewrite (cmp_loop_mem _ _ _ E).
    + exact (cmp_loop_loads _ _ _ E).
Qed.

Lemma compare_read_only_witness :
  MEM_compareStructs 14 1 SRAM (SRAM + 1) 0 two_bytes
  = Some (STRUCTS_ARENT_EQUAL, two_bytes_compared) /\
  ((forall x, mem two_bytes_compared x = mem two_bytes x) /\
   exists l, appended two_bytes two_bytes_compared l /\
             forallb is_load l = true).
Proof.
  assert (H : MEM_compareStructs 14 1 SRAM (SRAM + 1) 0 two_bytes
              = Some (STRUCTS_ARENT_EQUAL, two_bytes_compared))
    by reflexivity.
  split; [exact H|].
  exact (compare_read_only 14 1 SRAM (SRAM + 1) 0 two_bytes
           STRUCTS_ARENT_EQUAL two_bytes_compared H).
Defined.

Lemma twin_ranges :
  SRAM <> NULL /\ SRAM + 8 <> NULL /\
  0 <= SRAM < modulus /\ 0 <= SRAM + 8 < modulus /\ 1 <= 3 < modulus.
Proof.
  repeat split; try discriminate; reflexivity.
Defined.

(** X2: on two non-null buffers of [n >= 1] bytes compare returns, leaves the
    memory as it is, and answers STRUCTS_ARE_EQUAL exactly when the buffers
    hold the same byte at every index below [n]; otherwise it answers
    STRUCTS_ARENT_EQUAL. *)
Theorem compare_equal_iff : forall EFAULT a b n s fuel,
  a <> NULL -> b <> NULL ->
  0 <= a < modulus -> 0 <= b < modulus -> 1 <= n < modulus ->
  (trips n <= fuel)%nat ->
  exists r s',
    MEM_compareStructs EFAULT fuel a b n s = Some (r, s') /\
    mem s' = mem s /\
    (r = STRUCTS_ARE_EQUAL \/ r = STRUCTS_ARENT_EQUAL) /\
    (r = STRUCTS_ARE_EQUAL <->
     forall i, 0 <= i < n ->
       read_byte (mem s) (wrap (a + i)) = read_byte (mem s) (wrap (b + i))).
Proof.
  intros EFAULT a b n s fuel Ha Hb Ra Rb Rn Hf.
  now apply compare_correct_nonzero.
Qed.

Lemma compare_equal_iff_witness :
  (SRAM <> NULL /\ SRAM + 8 <> NULL /\
   0 <= SRAM < modulus /\ 0 <= SRAM + 8 < modulus /\ 1 <= 3 < modulus /\
   (trips 3 <= 3)%nat) /\
  exists r s',
    MEM_compareStructs 14 3 SRAM (SRAM + 8) 3 twin = Some (r, s') /\
    mem s' = mem twin /\
    (r = STRUCTS_ARE_EQUAL \/ r = STRUCTS_ARENT_EQUAL) /\
    (r = STRUCTS_ARE_EQUAL <->
     forall i, 0 <= i < 3 ->
       read_byte (mem twin) (wrap (SRAM + i))
       = read_byte (mem twin) (wrap (SRAM + 8 + i))).
Proof.
  destruct twin_ranges as (H1 & H2 & H3 & H4 & H5).
  assert (H6 : (trips 3 <= 3)%nat) by apply le_n.
  split; [repeat split; try assumption; try apply H3; try apply H4;
          apply H5|].
  exact (compare_equal_iff 14 SRAM (SRAM + 8) 3 twin 3 H1 H2 H3 H4 H5 H6).
Defined.

(** X3: on buffers of [n >= 1] bytes compare stops at the first index [j]
    whose bytes differ, or after the last index: the bytes below [j] agree,
    the log grows by exactly the loads of the pairs 0 .. j, first buffer
    before second, and the answer is STRUCTS_ARENT_EQUAL when the bytes at
    [j] differ and STRUCTS_ARE_EQUAL when [j] is the last index and they
    agree. *)
Theorem compare_stops_at_first_mismatch : forall EFAULT a b n s fuel,
  a <> NULL -> b <> NULL ->
  0 <= a < modulus -> 0 <= b < modulus -> 1 <= n < modulus ->
  (trips n <= fuel)%nat ->
  exists r s' j,
    MEM_compareStructs EFAULT fuel a b n s = Some (r, s') /\
    0 <= Z.of_nat j < n /\
    appended s s' (cmp_events a b (S j)) /\
    (forall i, 0 <= i < Z.of_nat j ->
       read_byte (mem s) (wrap (a + i)) = read_byte (mem s) (wrap (b + i))) /\
    ((r = STRUCTS_ARENT_EQUAL /\
      read_byte (mem s) (wrap (a + Z.of_nat j))
      <> read_byte (mem s) (wrap (b + Z.of_nat j)))
     \/
     (r = STRUCTS_ARE_EQUAL /\ Z.of_nat j = n - 1 /\
      read_byte (mem s) (wrap (a + Z.of_nat j))
      = read_byte (mem s) (wrap (b + Z.of_nat j)))).
Proof.
  intros EFAULT a b n s fuel Ha Hb Ra Rb Rn Hf.
  destruct (compare_runs EFAULT a b n s fuel)
    as (s' & j & Hrun & _ & Htr & Hj & Heq & Hres); try assumption; [lia|].
  assert (Hk : Z.of_nat (trips n) = n) by now apply trips_nonzero.
  exists (regs s' Op3), s', j.
  split; [exact Hrun|]. split; [lia|]. split; [exact Htr|].
  split; [exact Heq|].
  destruct Hres as [[R Hne]|(R & Hl & He)].
  - left. now split.
  - right. split; [exact R|]. split; [lia|exact He].
Qed.

Lemma compare_stops_at_first_mismatch_witness :
  (SRAM <> NULL /\ SRAM + 8 <> NULL /\
   0 <= SRAM < modulus /\ 0 <= SRAM + 8 < modulus /\ 1 <= 3 < modulus /\
   (trips 3 <= 3)%nat) /\
  exists r s' j,
    MEM_compareStructs 14 3 SRAM (SRAM + 8) 3 twin = Some (r, s') /\
    0 <= Z.of_nat j < 3 /\
    appended twin s' (cmp_events SRAM (SRAM + 8) (S j)) /\
    (forall i, 0 <= i < Z.of_nat j ->
       read_byte (mem twin) (wrap (SRAM + i))
       = read_byte (mem twin) (wrap (SRAM + 8 + i))) /\
    ((r = STRUCTS_ARENT_EQUAL /\
      read_byte (mem twin) (wrap (SRAM + Z.of_nat j))
      <> read_byte (mem twin) (wrap (SRAM + 8 + Z.of_nat j)))
     \/
     (r = STRUCTS_ARE_EQUAL /\ Z.of_nat j = 3 - 1 /\
      read_byte (mem twin) (wrap (SRAM + Z.of_nat j))
      = read_byte (mem twin) (wrap (SRAM + 8 + Z.of_nat j)))).
Proof.
  destruct twin_ranges as (H1 & H2 & H3 & H4 & H5).
  assert (H6 : (trips 3 <= 3)%nat) by apply le_n.
  split; [repeat split; try assumption; try apply H3; try apply H4;
          apply H5|].
  exact (compare_stops_at_first_mismatch 14 SRAM (SRAM + 8) 3 twin 3
           H1 H2 H3 H4 H5 H6).
Defined.

(** X4: a buffer compares equal to itself: for a non-null [a] and a size
    [n >= 1], compare(a, a, n) returns STRUCTS_ARE_EQUAL. *)
Theorem compare_same_buffer : forall EFAULT a n s fuel,
  a <> NULL -> 0 <= a < modulus -> 1 <= n < modulus ->
  (trips n <= fuel)%nat ->
  status_of (MEM_compareStructs EFAULT fuel a a n s)
  = Some STRUCTS_ARE_EQUAL.
Proof.
  intros EFAULT a n s fuel Ha Ra Rn Hf.
  destruct (compare_total EFAULT a a n s fuel)
    as (r & s' & Hrun & _ & Hiff); try assumption; [lia|].
  rewrite (status_of_run _ _ _ Hrun). f_equal. apply Hiff. reflexivity.
Qed.

Lemma compare_same_buffer_witness :
  (SRAM <> NULL /\ 0 <= SRAM < modulus /\ 1 <= 3 < modulus /\
   (trips 3 <= 3)%nat) /\
  status_of (MEM_compareStructs 14 3 SRAM SRAM 3 twin)
  = Some STRUCTS_ARE_EQUAL.
Proof.
  assert (H1 : SRAM <> NULL) by discriminate.
  assert (H2 : 1 <= 3 < modulus) by (split; [discriminate|reflexivity]).
  assert (H3 : (trips 3 <= 3)%nat) by apply le_n.
  split; [repeat split; try assumption; try apply SRAM_range; apply H2|].
  exact (compare_same_buffer 14 SRAM 3 twin 3 H1 SRAM_range H2 H3).
Defined.

(** X5: compare is symmetric: on non-null buffers of [n >= 1] bytes,
    compare(a, b, n) and compare(b, a, n) return, with the same status. *)
Theorem compare_symmetric : forall EFAULT a b n s fuel,
  a <> NULL -> b <> NULL ->
  0 <= a < modulus -> 0 <= b < modulus -> 1 <= n < modulus ->
  (trips n <= fuel)%nat ->
  status_of (MEM_compareStructs EFAULT fuel a b n s)
  = status_of (MEM_compareStructs EFAULT fuel b a n s) /\
  status_of (MEM_compareStructs EFAULT fuel a b n s) <> None.
Proof.
  intros EFAULT a b n s fuel Ha Hb Ra Rb Rn Hf.
  destruct (compare_total EFAULT a b n s fuel)
    as (r1 & t1 & Hrun1 & Hr1 & Hiff1); try assumption; [lia|].
  destruct (compare_total EFAULT b a n s fuel)
    as (r2 & t2 & Hrun2 & Hr2 & Hiff2); try assumption; [lia|].
  rewrite (status_of_run _ _ _ Hrun1), (status_of_run _ _ _ Hrun2).
  split; [|discriminate]. f_equal.
  destruct Hr1 as [E1|E1]; destruct Hr2 as [E2|E2]; try congruence.
  - exfalso. assert (r2 = STRUCTS_ARE_EQUAL); [|rewrite E2 in *; discriminate].
    apply Hiff2. intros i Hi. symmetry. now apply (proj1 Hiff1 E1).
  - exfalso. assert (r1 = STRUCTS_ARE_EQUAL); [|rewrite E1 in *; discriminate].
    apply Hiff1. intros i Hi. symmetry. now apply (proj1 Hiff2 E2).
Qed.

Lemma compare_symmetric_witness :
  (SRAM <> NULL /\ SRAM + 8 <> NULL /\
   0 <= SRAM < modulus /\ 0 <= SRAM + 8 < modulus /\ 1 <= 3 < modulus /\
   (trips 3 <= 3)%nat) /\
  status_of (MEM_compareStructs 14 3 SRAM (SRAM + 8) 3 twin)
  = status_of (MEM_compareStructs 14 3 (SRAM + 8) SRAM 3 twin) /\
  status_of (MEM_compareStructs 14 3 SRAM (SRAM + 8) 3 twin) <> None.
Proof.
  destruct twin_ranges as (H1 & H2 & H3 & H4 & H5).
  assert (H6 : (trips 3 <= 3)%nat) by apply le_n.
  split; [repeat split; try assumption; try apply H3; try apply H4;
          apply H5|].
  exact (compare_symmetric 14 SRAM (SRAM + 8) 3 twin 3 H1 H2 H3 H4 H5 H6).
Defined.

(** X6: compare is transitive: on the same memory and for the same 32-bit
    size, if compare(a, b, n) and compare(b, c, n) return STRUCTS_ARE_EQUAL
    then so does compare(a, c, n). *)
Theorem compare_transitive : forall EFAULT a b c n s fuel,
  a <> NULL -> b <> NULL -> c <> NULL ->
  0 <= a < modulus -> 0 <= b < modulus -> 0 <= c < modulus ->
  0 <= n < modulus -> (trips n <= fuel)%nat ->
  status_of (MEM_compareStructs EFAULT fuel a b n s)
  = Some STRUCTS_ARE_EQUAL ->
  status_of (MEM_compareStructs EFAULT fuel b c n s)
  = Some STRUCTS_ARE_EQUAL ->
  status_of (MEM_compareStructs EFAULT fuel a c n s)
  = Some STRUCTS_ARE_EQUAL.
Proof.
  intros EFAULT a b c n s fuel Ha Hb Hc Ra Rb Rc Rn Hf Hab Hbc.
  destruct (compare_total EFAULT a b n s fuel)
    as (r1 & t1 & Hrun1 & _ & Hiff1); try assumption.
  destruct (compare_total EFAULT b c n s fuel)
    as (r2 & t2 & Hrun2 & _ & Hiff2); try assumption.
  destruct (compare_total EFAULT a c n s fuel)
    as (r3 & t3 & Hrun3 & _ & Hiff3); try assumption.
  rewrite (status_of_run _ _ _ Hrun1) in Hab.
  rewrite (status_of_run _ _ _ Hrun2) in Hbc.
  rewrite (status_of_run _ _ _ Hrun3). f_equal.
  injection Hab as Hab. injection Hbc as Hbc.
  apply Hiff3. intros i Hi.
  rewrite (proj1 Hiff1 Hab i Hi). now apply (proj1 Hiff2 Hbc).
Qed.

Lemma compare_transitive_witness :
  (SRAM <> NULL /\ SRAM + 4 <> NULL /\ SRAM + 8 <> NULL /\
   0 <= SRAM < modulus /\ 0 <= SRAM + 4 < modulus /\
   0 <= SRAM + 8 < modulus /\ 0 <= 2 < modulus /\ (trips 2 <= 2)%nat /\
   status_of (MEM_compareStructs 14 2 SRAM (SRAM + 4) 2 triple)
   = Some STRUCTS_ARE_EQUAL /\
   status_of (MEM_compareStructs 14 2 (SRAM + 4) (SRAM + 8) 2 triple)
   = Some STRUCTS_ARE_EQUAL) /\
  status_of (MEM_compareStructs 14 2 SRAM (SRAM + 8) 2 triple)
  = Some STRUCTS_ARE_EQUAL.
Proof.
  assert (H1 : SRAM <> NULL) by discriminate.
  assert (H2 : SRAM + 4 <> NULL) by discriminate.
  assert (H3 : SRAM + 8 <> NULL) by discriminate.
  assert (H4 : 0 <= SRAM + 4 < modulus) by (split; [discriminate|reflexivity]).
  assert (H5 : 0 <= SRAM + 8 < modulus) by (split; [discriminate|reflexivity]).
  assert (H6 : 0 <= 2 < modulus) by (split; [discriminate|reflexivity]).
  assert (H7 : (trips 2 <= 2)%nat) by apply le_n.
  assert (H8 : status_of (MEM_compareStructs 14 2 SRAM (SRAM + 4) 2 triple)
               = Some STRUCTS_ARE_EQUAL) by (vm_compute; reflexivity).
  assert (H9 : status_of
                 (MEM_compareStructs 14 2 (SRAM + 4) (SRAM + 8) 2 triple)
               = Some STRUCTS_ARE_EQUAL) by (vm_compute; reflexivity).
  split; [repeat split; try assumption; try apply SRAM_range;
          try apply H4; try apply H5; apply H6|].
  exact (compare_transitive 14 SRAM (SRAM + 4) (SRAM + 8) 2 triple 2
           H1 H2 H3 SRAM_range H4 H5 H6 H7 H8 H9).
Defined.

Lemma below_3 i : 0 <= i < 3 -> i = 0 \/ i = 1 \/ i = 2.
Proof. lia. Defined.

Lemma twin_noisy_first i :
  0 <= i < 3 ->
  read_byte (mem twin) (wrap (SRAM + i))
  = read_byte (mem twin_noisy) (wrap (SRAM + i)).
Proof.
  intros Hi. destruct (below_3 i Hi) as [->|[->| ->]]; reflexivity.
Defined.

Lemma twin_noisy_second i :
  0 <= i < 3 ->
  read_byte (mem twin) (wrap (SRAM + 8 + i))
  = read_byte (mem twin_noisy) (wrap (SRAM + 8 + i)).
Proof.
  intros Hi. destruct (below_3 i Hi) as [->|[->| ->]]; reflexivity.
Defined.

(** X7: on buffers of [n >= 1] bytes the answer of compare is a function of
    the bytes of the two regions: two machines that hold the same bytes in
    [a, a+n) and in [b, b+n) get the same status, whatever the rest of their
    memories, their registers, flags and logs. *)
Theorem compare_depends_on_regions_only : forall EFAULT a b n s1 s2 fuel,
  a <> NULL -> b <> NULL ->
  0 <= a < modulus -> 0 <= b < modulus -> 1 <= n < modulus ->
  (trips n <= fuel)%nat ->
  (forall i, 0 <= i < n ->
     read_byte (mem s1) (wrap (a + i)) = read_byte (mem s2) (wrap (a + i))) ->
  (forall i, 0 <= i < n ->
     read_byte (mem s1) (wrap (b + i)) = read_byte (mem s2) (wrap (b + i))) ->
  status_of (MEM_compareStructs EFAULT fuel a b n s1)
  = status_of (MEM_compareStructs EFAULT fuel a b n s2) /\
  status_of (MEM_compareStructs EFAULT fuel a b n s1) <> None.
Proof.
  intros EFAULT a b n s1 s2 fuel Ha Hb Ra Rb Rn Hf HA HB.
  destruct (compare_regions_only EFAULT a b n s1 s2 fuel)
    as (r & t1 & t2 & H1 & H2); try assumption.
  rewrite (status_of_run _ _ _ H1), (status_of_run _ _ _ H2).
  split; [reflexivity|discriminate].
Qed.

Lemma compare_depends_on_regions_only_witness :
  (SRAM <> NULL /\ SRAM + 8 <> NULL /\
   0 <= SRAM < modulus /\ 0 <= SRAM + 8 < modulus /\ 1 <= 3 < modulus /\
   (trips 3 <= 3)%nat /\
   (forall i, 0 <= i < 3 ->
      read_byte (mem twin) (wrap (SRAM + i))
      = read_byte (mem twin_noisy) (wrap (SRAM + i))) /\
   (forall i, 0 <= i < 3 ->
      read_byte (mem twin) (wrap (SRAM + 8 + i))
      = read_byte (mem twin_noisy) (wrap (SRAM + 8 + i)))) /\
  status_of (MEM_compareStructs 14 3 SRAM (SRAM + 8) 3 twin)
  = status_of (MEM_compareStructs 14 3 SRAM (SRAM + 8) 3 twin_noisy) /\
  status_of (MEM_compareStructs 14 3 SRAM (SRAM + 8) 3 twin) <> None.
Proof.
  destruct twin_ranges as (H1 & H2 & H3 & H4 & H5).
  assert (H6 : (trips 3 <= 3)%nat) by apply le_n.
  split.
  - repeat split; try assumption; try apply H3; try apply H4; try apply H5.
    + exact twin_noisy_first.
    + exact twin_noisy_second.
  - exact (compare_depends_on_regions_only 14 SRAM (SRAM + 8) 3 twin
             twin_noisy 3 H1 H2 H3 H4 H5 H6 twin_noisy_first
             twin_noisy_second).
Defined.

(** X8: on buffers of [n >= 1] bytes compare loads only from the two
    regions: every event it appends to the log is a load at an address of
    [a, a+n) or of [b, b+n) (addresses modulo 2^32), and the memory is
    unchanged. *)
Theorem compare_stays_in_bounds : forall EFAULT a b n s fuel,
  a <> NULL -> b <> NULL ->
  0 <= a < modulus -> 0 <= b < modulus -> 1 <= n < modulus ->
  (trips n <= fuel)%nat ->
  exists r s' l,
    MEM_compareStructs EFAULT fuel a b n s = Some (r, s') /\
    mem s' = mem s /\ appended s s' l /\
    forallb (loads_in a b n) l = true.
Proof.
  intros EFAULT a b n s fuel Ha Hb Ra Rb Rn Hf.
  now apply compare_in_bounds.
Qed.

Lemma compare_stays_in_bounds_witness :
  (SRAM <> NULL /\ SRAM + 8 <> NULL /\
   0 <= SRAM < modulus /\ 0 <= SRAM + 8 < modulus /\ 1 <= 3 < modulus /\
   (trips 3 <= 3)%nat) /\
  exists r s' l,
    MEM_compareStructs 14 3 SRAM (SRAM + 8) 3 twin = Some (r, s') /\
    mem s' = mem twin /\ appended twin s' l /\
    forallb (loads_in SRAM (SRAM + 8) 3) l = true.
Proof.
  destruct twin_ranges as (H1 & H2 & H3 & H4 & H5).
  assert (H6 : (trips 3 <= 3)%nat) by apply le_n.
  split; [repeat split; try assumption; try apply H3; try apply H4;
          apply H5|].
  exact (compare_stays_in_bounds 14 SRAM (SRAM + 8) 3 twin 3
           H1 H2 H3 H4 H5 H6).
Defined.

(** X9: on regions of [n >= 1] bytes copy loads only inside the source
    region and stores only inside the destination region, and every byte
    outside the destination region is left as it was, whether or not the
    regions overlap. *)
Theorem copy_stays_in_bounds : forall EFAULT src dst n s fuel,
  src <> NULL -> dst <> NULL ->
  0 <= src < modulus -> 0 <= dst < modulus -> 1 <= n < modulus ->
  (trips n <= fuel)%nat ->
  exists s' l,
    MEM_copyStruct EFAULT fuel src dst n s = Some (STRUCT_COPIED, s') /\
    appended s s' l /\ forallb (copy_in src dst n) l = true /\
    forall x, in_region dst n x = false -> mem s' x = mem s x.
Proof.
  intros EFAULT src dst n s fuel Hs Hd Rs Rd Rn Hf.
  now apply copy_in_bounds.
Qed.

Lemma copy_stays_in_bounds_witness :
  (SRAM <> NULL /\ SRAM + 8 <> NULL /\
   0 <= SRAM < modulus /\ 0 <= SRAM + 8 < modulus /\ 1 <= 3 < modulus /\
   (trips 3 <= 3)%nat) /\
  exists s' l,
    MEM_copyStruct 14 3 SRAM (SRAM + 8) 3 three_bytes
    = Some (STRUCT_COPIED, s') /\
    appended three_bytes s' l /\
    forallb (copy_in SRAM (SRAM + 8) 3) l = true /\
    forall x, in_region (SRAM + 8) 3 x = false ->
              mem s' x = mem three_bytes x.
Proof.
  destruct twin_ranges as (H1 & H2 & H3 & H4 & H5).
  assert (H6 : (trips 3 <= 3)%nat) by apply le_n.
  split; [repeat split; try assumption; try apply H3; try apply H4;
          apply H5|].
  exact (copy_stays_in_bounds 14 SRAM (SRAM + 8) 3 three_bytes 3
           H1 H2 H3 H4 H5 H6).
Defined.

(** X10: on a region of [n >= 1] bytes fill appends to the log exactly the
    [n] stores of the value at ptr, ptr + 1, ..., ptr + n - 1, in this
    order, and leaves every byte outside the region as it was. *)
Theorem fill_stores_in_order : forall EFAULT ptr n v s fuel,
  ptr <> NULL -> 0 <= ptr < modulus -> 1 <= n < modulus -> 0 <= v < 256 ->
  (trips n <= fuel)%nat ->
  exists s',
    MEM_fillStruct EFAULT fuel ptr n v s = Some (STRUCT_FILLED, s') /\
    appended s s' (fill_order ptr v (Z.to_nat n)) /\
    forall x, in_region ptr n x = false -> mem s' x = mem s x.
Proof.
  intros EFAULT ptr n v s fuel Hp Rp Rn Rv Hf.
  assert (Hk : Z.of_nat (trips n) = n) by now apply trips_nonzero.
  assert (Ht : trips n = Z.to_nat n) by lia.
  eexists. split; [apply fill_runs; (assumption || lia)|]. split.
  - unfold appended, fill_order. rewrite <- Ht.
    rewrite (fill_iter_trace (fill_entry n ptr v s) Rp (trips n)).
    change (regs (fill_entry n ptr v s) R2) with v.
    rewrite (Z.mod_small v 256) by lia. reflexivity.
  - intros x Hx. apply (fill_iter_frame (fill_entry n ptr v s) Rp).
    intros i Hi. apply (outside_region ptr n); (assumption || lia).
Qed.

Lemma fill_stores_in_order_witness :
  (SRAM <> NULL /\ 0 <= SRAM < modulus /\ 1 <= 3 < modulus /\
   0 <= 170 < 256 /\ (trips 3 <= 3)%nat) /\
  exists s',
    MEM_fillStruct 14 3 SRAM 3 170 three_bytes = Some (STRUCT_FILLED, s') /\
    appended three_bytes s' (fill_order SRAM 170 (Z.to_nat 3)) /\
    forall x, in_region SRAM 3 x = false -> mem s' x = mem three_bytes x.
Proof.
  destruct twin_ranges as (H1 & _ & H3 & _ & H5).
  assert (H4 : 0 <= 170 < 256) by lia.
  assert (H6 : (trips 3 <= 3)%nat) by apply le_n.
  split; [repeat split; try assumption; try apply H3; try apply H5;
          apply H4|].
  exact (fill_stores_in_order 14 SRAM 3 170 three_bytes 3 H1 H3 H5 H4 H6).
Defined.

(** ** Copy: order of the accesses and overlapping regions *)

Section CopyMore.

Variable s : machine.
Local Abbreviation p := (regs s Op1).
Local Abbreviation d := (regs s Op2).
Hypothesis p_range : 0 <= p < modulus.
Hypothesis d_range : 0 <= d < modulus.

Lemma copy_iter_order k :
  exists l,
    trace (Nat.iter k copy_body s) = trace s ++ l /\
    map erase l = copy_order p d k.
Proof.
  induction k as [|k (l & El & Ol)].
  - exists []. split; [cbn; now rewrite app_nil_r|reflexivity].
  - destruct (copy_iter_regs s p_range d_range k) as [E1 E2].
    rewrite Nat.iter_succ, copy_body_trace, E1, E2, El.
    eexists. split; [now rewrite <- app_assoc|].
    unfold copy_order in *.
    rewrite map_app, Ol, seq_S, flat_map_app. cbn. reflexivity.
Qed.

(** Source and destination at the same address. *)
Lemma copy_iter_self k :
  p = d ->
  forall x, read_byte (mem (Nat.iter k copy_body s)) x = read_byte (mem s) x.
Proof.
  intros Epd. induction k as [|k IH]; intros x; [reflexivity|].
  destruct (copy_iter_regs s p_range d_range k) as [E1 E2].
  rewrite Nat.iter_succ. unfold read_byte at 1.
  rewrite copy_body_mem, E1, E2, Epd.
  destruct (Z.eqb_spec x (wrap (d + Z.of_nat k))) as [->|NE].
  - rewrite read_byte_idem. apply IH.
  - exact (IH x).
Qed.

(** The destination starts [gap >= 1] bytes above the source and neither
    region wraps around: after [k] passes the destination holds the first
    [gap] source bytes over and over. *)
Variable gap : Z.
Hypothesis gap_pos : 1 <= gap.
Hypothesis d_above : d = p + gap.

Lemma copy_iter_up k :
  d + Z.of_nat k <= modulus ->
  (forall i, 0 <= i < Z.of_nat k ->
     mem (Nat.iter k copy_body s) (d + i) = read_byte (mem s) (p + i mod gap))
  /\
  (forall x, x < d \/ d + Z.of_nat k <= x ->
     mem (Nat.iter k copy_body s) x = mem s x).
Proof.
  induction k as [|k IH]; intros Hk.
  - split; [intros; lia|reflexivity].
  - destruct IH as [IHw IHf]; [lia|].
    destruct (copy_iter_regs s p_range d_range k) as [E1 E2].
    rewrite (wrap_small (p + Z.of_nat k)) in E1 by lia.
    rewrite (wrap_small (d + Z.of_nat k)) in E2 by lia.
    assert (Hval : read_byte (mem (Nat.iter k copy_body s)) (p + Z.of_nat k)
                   = read_byte (mem s) (p + Z.of_nat k mod gap)).
    { destruct (Z_lt_ge_dec (Z.of_nat k) gap) as [Hlt|Hge].
      - rewrite (Z.mod_small (Z.of_nat k) gap) by lia.
        unfold read_byte. f_equal. apply IHf. lia.
      - replace (p + Z.of_nat k) with (d + (Z.of_nat k - gap)) by lia.
        unfold read_byte at 1. rewrite IHw by lia.
        rewrite read_byte_idem. do 2 f_equal.
        replace (Z.of_nat k) with (Z.of_nat k - gap + 1 * gap) at 2 by lia.
        symmetry. apply Z_mod_plus_full. }
    split.
    + intros i Hi. rewrite Nat.iter_succ, copy_body_mem, E1, E2.
      destruct (Z.eqb_spec (d + i) (d + Z.of_nat k)) as [E|NE].
      * assert (i = Z.of_nat k) by lia. subst i. exact Hval.
      * apply IHw. lia.
    + intros x Hx. rewrite Nat.iter_succ, copy_body_mem, E2.
      destruct (Z.eqb_spec x (d + Z.of_nat k)) as [E|NE]; [lia|].
      apply IHf. lia.
Qed.

End CopyMore.

(** X11: copy works one byte at a time in increasing-offset order: on
    regions of [n >= 1] bytes the log grows by exactly [2 n] events, the
    load at src + i followed by the store at dst + i for i = 0, ..., n - 1
    (addresses modulo 2^32), overlapping regions included. *)
Theorem copy_access_order : forall EFAULT src dst n s fuel,
  src <> NULL -> dst <> NULL ->
  0 <= src < modulus -> 0 <= dst < modulus -> 1 <= n < modulus ->
  (trips n <= fuel)%nat ->
  exists s' l,
    MEM_copyStruct EFAULT fuel src dst n s = Some (STRUCT_COPIED, s') /\
    appended s s' l /\
    map erase l = copy_order src dst (Z.to_nat n).
Proof.
  intros EFAULT src dst n s fuel Hs Hd Rs Rd Rn Hf.
  assert (Hk : Z.of_nat (trips n) = n) by now apply trips_nonzero.
  assert (Ht : trips n = Z.to_nat n) by lia.
  destruct (copy_iter_order (entry n src dst s) Rs Rd (trips n))
    as (l & Htr & Ho).
  eexists. exists l. split; [apply copy_runs; (assumption || lia)|].
  split; [exact Htr|]. rewrite <- Ht. exact Ho.
Qed.

Lemma copy_access_order_witness :
  (SRAM <> NULL /\ SRAM + 8 <> NULL /\
   0 <= SRAM < modulus /\ 0 <= SRAM + 8 < modulus /\ 1 <= 3 < modulus /\
   (trips 3 <= 3)%nat) /\
  exists s' l,
    MEM_copyStruct 14 3 SRAM (SRAM + 8) 3 three_bytes
    = Some (STRUCT_COPIED, s') /\
    appended three_bytes s' l /\
    map erase l = copy_order SRAM (SRAM + 8) (Z.to_nat 3).
Proof.
  destruct twin_ranges as (H1 & H2 & H3 & H4 & H5).
  assert (H6 : (trips 3 <= 3)%nat) by apply le_n.
  split; [repeat split; try assumption; try apply H3; try apply H4;
          apply H5|].
  exact (copy_access_order 14 SRAM (SRAM + 8) 3 three_bytes 3
           H1 H2 H3 H4 H5 H6).
Defined.

(** X12: copy is safe when the destination lies below the source, even if
    the regions overlap: for non-null dst < src and [n >= 1] with src + n
    inside the address space, every destination byte ends up equal to the
    source byte the call found at the same index. *)
Theorem copy_downward_overlap : forall EFAULT src dst n s fuel,
  dst <> NULL -> 0 <= dst -> dst < src -> 1 <= n -> src + n <= modulus ->
  (trips n <= fuel)%nat ->
  exists s',
    MEM_copyStruct EFAULT fuel src dst n s = Some (STRUCT_COPIED, s') /\
    forall i, 0 <= i < n ->
      read_byte (mem s') (dst + i) = read_byte (mem s) (src + i).
Proof.
  intros EFAULT src dst n s fuel Hd Rd Hlt Hn Htop Hf.
  assert (Hd0 : 0 < dst) by (unfold NULL in Hd; lia).
  assert (Hs : src <> NULL) by (unfold NULL; lia).
  eexists. split; [apply copy_runs; (assumption || lia)|].
  intros i Hi.
  assert (Hk : Z.of_nat (trips n) = n) by (apply trips_nonzero; lia).
  assert (Rs' : 0 <= src < modulus) by lia.
  assert (Rd' : 0 <= dst < modulus) by lia.
  assert (Hsep : forall a b, 0 <= b < a -> a < n ->
                   wrap (src + a) <> wrap (dst + b)).
  { intros a b Hb Ha. rewrite !wrap_small by lia. lia. }
  pose proof (copy_iter_copied (entry n src dst s) Rs' Rd' n
                ltac:(lia) Hsep (trips n) i ltac:(lia) ltac:(lia)) as E.
  change (regs (entry n src dst s) Op2) with dst in E.
  change (regs (entry n src dst s) Op1) with src in E.
  change (mem (entry n src dst s)) with (mem s) in E.
  rewrite !wrap_small in E by lia.
  rewrite (read_byte_of_mem _ _ _ E). apply read_byte_idem.
Qed.

Lemma copy_downward_overlap_witness :
  (SRAM <> NULL /\ 0 <= SRAM /\ SRAM < SRAM + 1 /\ 1 <= 2 /\
   SRAM + 1 + 2 <= modulus /\ (trips 2 <= 2)%nat) /\
  exists s',
    MEM_copyStruct 14 2 (SRAM + 1) SRAM 2 three_bytes
    = Some (STRUCT_COPIED, s') /\
    forall i, 0 <= i < 2 ->
      read_byte (mem s') (SRAM + i) = read_byte (mem three_bytes) (SRAM + 1 + i).
Proof.
  assert (H1 : SRAM <> NULL) by discriminate.
  assert (H2 : 0 <= SRAM) by discriminate.
  assert (H3 : SRAM < SRAM + 1) by reflexivity.
  assert (H4 : 1 <= 2) by discriminate.
  assert (H5 : SRAM + 1 + 2 <= modulus) by discriminate.
  assert (H6 : (trips 2 <= 2)%nat) by apply le_n.
  split; [repeat split; assumption|].
  exact (copy_downward_overlap 14 (SRAM + 1) SRAM 2 three_bytes 2
           H1 H2 H3 H4 H5 H6).
Defined.

(** X13: when the destination starts [gap >= 1] bytes above the source,
    copy repeats the first [gap] source bytes: for dst = src + gap and
    [n >= 1] with dst + n inside the address space, the destination byte at
    index i ends
    up equal to the source byte the call found at index i mod gap.  With
    gap >= n this is a plain copy; with gap = 1 the first source byte fills
    the destination. *)
Theorem copy_upward_overlap : forall EFAULT src gap n s fuel,
  src <> NULL -> 0 <= src -> 1 <= gap -> 1 <= n ->
  src + gap + n <= modulus ->
  (trips n <= fuel)%nat ->
  exists s',
    MEM_copyStruct EFAULT fuel src (src + gap) n s
    = Some (STRUCT_COPIED, s') /\
    forall i, 0 <= i < n ->
      read_byte (mem s') (src + gap + i) = read_byte (mem s) (src + i mod gap).
Proof.
  intros EFAULT src gap n s fuel Hs Rs Hg Hn Htop Hf.
  assert (Hs0 : 0 < src) by (unfold NULL in Hs; lia).
  assert (Hd : src + gap <> NULL) by (unfold NULL; lia).
  eexists. split; [apply copy_runs; (assumption || lia)|].
  intros i Hi.
  assert (Hk : Z.of_nat (trips n) = n) by (apply trips_nonzero; lia).
  assert (Rs' : 0 <= src < modulus) by lia.
  assert (Rd' : 0 <= src + gap < modulus) by lia.
  destruct (copy_iter_up (entry n src (src + gap) s) Rs' Rd' gap Hg eq_refl
              (trips n)) as [Hw _];
    [change (regs (entry n src (src + gap) s) Op2) with (src + gap); lia|].
  specialize (Hw i ltac:(lia)).
  change (regs (entry n src (src + gap) s) Op2) with (src + gap) in Hw.
  change (regs (entry n src (src + gap) s) Op1) with src in Hw.
  change (mem (entry n src (src + gap) s)) with (mem s) in Hw.
  rewrite (read_byte_of_mem _ _ _ Hw). apply read_byte_idem.
Qed.

Lemma copy_upward_overlap_witness :
  (SRAM <> NULL /\ 0 <= SRAM /\ 1 <= 1 /\ 1 <= 2 /\
   SRAM + 1 + 2 <= modulus /\ (trips 2 <= 2)%nat) /\
  exists s',
    MEM_copyStruct 14 2 SRAM (SRAM + 1) 2 three_bytes
    = Some (STRUCT_COPIED, s') /\
    forall i, 0 <= i < 2 ->
      read_byte (mem s') (SRAM + 1 + i)
      = read_byte (mem three_bytes) (SRAM + i mod 1).
Proof.
  assert (H1 : SRAM <> NULL) by discriminate.
  assert (H2 : 0 <= SRAM) by discriminate.
  assert (H3 : 1 <= 1) by discriminate.
  assert (H4 : 1 <= 2) by discriminate.
  assert (H5 : SRAM + 1 + 2 <= modulus) by discriminate.
  assert (H6 : (trips 2 <= 2)%nat) by apply le_n.
  split; [repeat split; assumption|].
  exact (copy_upward_overlap 14 SRAM 1 2 three_bytes 2 H1 H2 H3 H4 H5 H6).
Defined.

(** X14: copying a region onto itself changes no byte: for a non-null [a]
    and a size [n >= 1], copy(a, a, n) returns STRUCT_COPIED and every
    address holds the byte it held before. *)
Theorem copy_onto_itself : forall EFAULT a n s fuel,
  a <> NULL -> 0 <= a < modulus -> 1 <= n < modulus ->
  (trips n <= fuel)%nat ->
  exists s',
    MEM_copyStruct EFAULT fuel a a n s = Some (STRUCT_COPIED, s') /\
    forall x, read_byte (mem s') x = read_byte (mem s) x.
Proof.
  intros EFAULT a n s fuel Ha Ra Rn Hf.
  eexists. split; [apply copy_runs; (assumption || lia)|].
  intros x.
  exact (copy_iter_self (entry n a a s) Ra Ra (trips n) eq_refl x).
Qed.

Lemma copy_onto_itself_witness :
  (SRAM <> NULL /\ 0 <= SRAM < modulus /\ 1 <= 3 < modulus /\
   (trips 3 <= 3)%nat) /\
  exists s',
    MEM_copyStruct 14 3 SRAM SRAM 3 three_bytes = Some (STRUCT_COPIED, s') /\
    forall x, read_byte (mem s') x = read_byte (mem three_bytes) x.
Proof.
  assert (H1 : SRAM <> NULL) by discriminate.
  assert (H2 : 1 <= 3 < modulus) by (split; [discriminate|reflexivity]).
  assert (H3 : (trips 3 <= 3)%nat) by apply le_n.
  split; [repeat split; try assumption; try apply SRAM_range; apply H2|].
  exact (copy_onto_itself 14 SRAM 3 three_bytes 3 H1 SRAM_range H2 H3).
Defined.

(** ** Fill: overwriting, and composition with compare *)

(** An address is one of the first [k] of a region or none of them. *)
Lemma region_cases a k x :
  0 <= k <= modulus ->
  (exists i, 0 <= i < k /\ x = wrap (a + i)) \/
  (forall i, 0 <= i < k -> x <> wrap (a + i)).
Proof.
  intros Hk.
  destruct (in_region a k x) eqn:E.
  - destruct (Z_lt_ge_dec x 0) as [Hneg|Hpos].
    { right. intros i Hi ->. pose proof (wrap_range (a + i)). lia. }
    destruct (Z_lt_ge_dec x modulus) as [Hlt|Hge].
    + left. exists (wrap (x - a)). unfold in_region in E.
      apply Z.ltb_lt in E. pose proof (wrap_range (x - a)).
      split; [lia|]. rewrite wrap_add_r.
      replace (a + (x - a)) with x by lia. symmetry. apply wrap_small. lia.
    + right. intros i Hi ->. pose proof (wrap_range (a + i)). lia.
  - right. now apply outside_region.
Qed.

(** X15: a second fill of the same region overwrites the first: for a size
    [n >= 1], the memory after fill(ptr, n, v1) followed by
    fill(ptr, n, v2) is the memory after fill(ptr, n, v2) alone.  With
    v1 = v2: filling twice gives the memory of filling once. *)
Theorem fill_overwrites : forall EFAULT ptr n v1 v2 s fuel,
  ptr <> NULL -> 0 <= ptr < modulus -> 1 <= n < modulus ->
  (trips n <= fuel)%nat ->
  exists s1 s12 s2,
    MEM_fillStruct EFAULT fuel ptr n v1 s = Some (STRUCT_FILLED, s1) /\
    MEM_fillStruct EFAULT fuel ptr n v2 s1 = Some (STRUCT_FILLED, s12) /\
    MEM_fillStruct EFAULT fuel ptr n v2 s = Some (STRUCT_FILLED, s2) /\
    forall x, mem s12 x = mem s2 x.
Proof.
  intros EFAULT ptr n v1 v2 s fuel Hp Rp Rn Hf.
  assert (Rn' : 0 <= n < modulus) by lia.
  set (s1 := Nat.iter (trips n) fill_body (fill_entry n ptr v1 s)).
  exists s1. eexists. eexists.
  split; [now apply fill_runs|]. split; [now apply fill_runs|].
  split; [now apply fill_runs|].
  intros x.
  destruct (region_cases ptr (Z.of_nat (trips n)) x) as [(i & Hi & ->)|Hout].
  - split; [lia|now apply trips_le].
  - pose proof (fill_iter_written (fill_entry n ptr v2 s1) Rp (trips n) i Hi)
      as E1.
    pose proof (fill_iter_written (fill_entry n ptr v2 s) Rp (trips n) i Hi)
      as E2.
    change (regs (fill_entry n ptr v2 s1) Op1) with ptr in E1.
    change (regs (fill_entry n ptr v2 s) Op1) with ptr in E2.
    change (regs (fill_entry n ptr v2 s1) R2) with v2 in E1.
    change (regs (fill_entry n ptr v2 s) R2) with v2 in E2.
    now rewrite E1, E2.
  - rewrite (fill_iter_frame (fill_entry n ptr v2 s1) Rp (trips n) x Hout).
    rewrite (fill_iter_frame (fill_entry n ptr v2 s) Rp (trips n) x Hout).
    change (mem (fill_entry n ptr v2 s1) x) with (mem s1 x).
    change (mem (fill_entry n ptr v2 s) x) with (mem s x).
    exact (fill_iter_frame (fill_entry n ptr v1 s) Rp (trips n) x Hout).
Qed.

Lemma fill_overwrites_witness :
  (SRAM <> NULL /\ 0 <= SRAM < modulus /\ 1 <= 3 < modulus /\
   (trips 3 <= 3)%nat) /\
  exists s1 s12 s2,
    MEM_fillStruct 14 3 SRAM 3 85 three_bytes = Some (STRUCT_FILLED, s1) /\
    MEM_fillStruct 14 3 SRAM 3 170 s1 = Some (STRUCT_FILLED, s12) /\
    MEM_fillStruct 14 3 SRAM 3 170 three_bytes = Some (STRUCT_FILLED, s2) /\
    forall x, mem s12 x = mem s2 x.
Proof.
  assert (H1 : SRAM <> NULL) by discriminate.
  assert (H2 : 1 <= 3 < modulus) by (split; [discriminate|reflexivity]).
  assert (H3 : (trips 3 <= 3)%nat) by apply le_n.
  split; [repeat split; try assumption; try apply SRAM_range; apply H2|].
  exact (fill_overwrites 14 SRAM 3 85 170 three_bytes 3 H1 SRAM_range H2 H3).
Defined.

(** X16: two regions filled with the same value compare equal: for
    non-null [a] and [b] and [n >= 1], after fill(a, n, v) and
    fill(b, n, v), compare(a, b, n) returns STRUCTS_ARE_EQUAL, whether or
    not the regions overlap. *)
Theorem fill_fill_compare : forall EFAULT a b n v s fuel,
  a <> NULL -> b <> NULL ->
  0 <= a < modulus -> 0 <= b < modulus -> 1 <= n < modulus ->
  (trips n <= fuel)%nat ->
  exists s1 s2,
    MEM_fillStruct EFAULT fuel a n v s = Some (STRUCT_FILLED, s1) /\
    MEM_fillStruct EFAULT fuel b n v s1 = Some (STRUCT_FILLED, s2) /\
    status_of (MEM_compareStructs EFAULT fuel a b n s2)
    = Some STRUCTS_ARE_EQUAL.
Proof.
  intros EFAULT a b n v s fuel Ha Hb Ra Rb Rn Hf.
  assert (Hk : Z.of_nat (trips n) = n) by now apply trips_nonzero.
  set (s1 := Nat.iter (trips n) fill_body (fill_entry n a v s)).
  set (s2 := Nat.iter (trips n) fill_body (fill_entry n b v s1)).
  exists s1, s2.
  split; [apply fill_runs; (assumption || lia)|].
  split; [apply fill_runs; (assumption || lia)|].
  assert (HB : forall i, 0 <= i < n -> mem s2 (wrap (b + i)) = v mod 256).
  { intros i Hi.
    exact (fill_iter_written (fill_entry n b v s1) Rb (trips n) i
             ltac:(lia)). }
  assert (HA : forall i, 0 <= i < n -> mem s2 (wrap (a + i)) = v mod 256).
  { intros i Hi.
    destruct (region_cases b (Z.of_nat (trips n)) (wrap (a + i)))
      as [(j & Hj & E)|Hout]; [lia| |].
    - rewrite E. apply HB. lia.
    - unfold s2.
      rewrite (fill_iter_frame (fill_entry n b v s1) Rb (trips n) _ Hout).
      exact (fill_iter_written (fill_entry n a v s) Ra (trips n) i
               ltac:(lia)). }
  destruct (compare_correct_nonzero EFAULT a b n s2 fuel)
    as (r & s3 & Hrun & _ & _ & Hiff); try assumption.
  rewrite (status_of_run _ _ _ Hrun). f_equal. apply Hiff.
  intros i Hi. unfold read_byte. now rewrite HA, HB.
Qed.

Lemma fill_fill_compare_witness :
  (SRAM <> NULL /\ SRAM + 1 <> NULL /\
   0 <= SRAM < modulus /\ 0 <= SRAM + 1 < modulus /\ 1 <= 2 < modulus /\
   (trips 2 <= 2)%nat) /\
  exists s1 s2,
    MEM_fillStruct 14 2 SRAM 2 170 three_bytes = Some (STRUCT_FILLED, s1) /\
    MEM_fillStruct 14 2 (SRAM + 1) 2 170 s1 = Some (STRUCT_FILLED, s2) /\
    status_of (MEM_compareStructs 14 2 SRAM (SRAM + 1) 2 s2)
    = Some STRUCTS_ARE_EQUAL.
Proof.
  assert (H1 : SRAM <> NULL) by discriminate.
  assert (H2 : SRAM + 1 <> NULL) by discriminate.
  assert (H3 : 1 <= 2 < modulus) by (split; [discriminate|reflexivity]).
  assert (H4 : (trips 2 <= 2)%nat) by apply le_n.
  split; [repeat split; try assumption; try apply SRAM_range;
          try apply SRAM1_range; apply H3|].
  exact (fill_fill_compare 14 SRAM (SRAM + 1) 2 170 three_bytes 2
           H1 H2 SRAM_range SRAM1_range H3 H4).
Defined.

(** ** The loops test the counter after the transfer *)

(** X17: the loops transfer before they test the counter: on non-null
    references every call that returns has first loaded or stored at the
    very addresses it was given, whatever the size, 0 included: compare
    loads from [a] and from [b], copy loads from [a] and stores that byte at
    [b], fill stores the low byte of the value at [a]. *)
Theorem first_transfer_unconditional : forall EFAULT fuel a b n v s,
  a <> NULL -> b <> NULL ->
  (forall r s',
     MEM_compareStructs EFAULT fuel a b n s = Some (r, s') ->
     exists l, appended s s' (Load a :: Load b :: l)) /\
  (forall r s',
     MEM_copyStruct EFAULT fuel a b n s = Some (r, s') ->
     exists l, appended s s'
                 (Load a :: Store b (read_byte (mem s) a) :: l)) /\
  (forall r s',
     MEM_fillStruct EFAULT fuel a n v s = Some (r, s') ->
     exists l, appended s s' (Store a (v mod 256) :: l)).
Proof.
  intros EFAULT fuel a b n v s Ha Hb.
  split; [|split]; intros r s';
    apply (first_pass_always_runs EFAULT fuel a b n v s r s' Ha Hb).
Qed.

Lemma first_transfer_unconditional_witness :
  (SRAM <> NULL /\ SRAM + 1 <> NULL) /\
  (status_of (MEM_compareStructs 14 1 SRAM (SRAM + 1) 1 two_bytes)
   = Some STRUCTS_ARENT_EQUAL /\
   status_of (MEM_copyStruct 14 1 SRAM (SRAM + 1) 1 two_bytes)
   = Some STRUCT_COPIED /\
   status_of (MEM_fillStruct 14 1 SRAM 1 170 two_bytes)
   = Some STRUCT_FILLED) /\
  (forall r s',
     MEM_compareStructs 14 1 SRAM (SRAM + 1) 1 two_bytes = Some (r, s') ->
     exists l, appended two_bytes s' (Load SRAM :: Load (SRAM + 1) :: l)) /\
  (forall r s',
     MEM_copyStruct 14 1 SRAM (SRAM + 1) 1 two_bytes = Some (r, s') ->
     exists l, appended two_bytes s'
                 (Load SRAM
                  :: Store (SRAM + 1) (read_byte (mem two_bytes) SRAM) :: l))
  /\
  (forall r s',
     MEM_fillStruct 14 1 SRAM 1 170 two_bytes = Some (r, s') ->
     exists l, appended two_bytes s' (Store SRAM (170 mod 256) :: l)).
Proof.
  assert (H1 : SRAM <> NULL) by discriminate.
  assert (H2 : SRAM + 1 <> NULL) by discriminate.
  split; [split; assumption|].
  split; [repeat split; vm_compute; reflexivity|].
  exact (first_transfer_unconditional 14 1 SRAM (SRAM + 1) 1 170 two_bytes
           H1 H2).
Defined.

(** With the counter not yet at zero, the compare loop reaches the first
    index whose bytes differ in just that many passes. *)
Lemma cmp_loop_mismatch j : forall s,
  0 <= regs s Op1 < modulus -> 0 <= regs s Op2 < modulus ->
  (forall i, 0 <= i < Z.of_nat j ->
     read_byte (mem s) (wrap (regs s Op1 + i))
     = read_byte (mem s) (wrap (regs s Op2 + i))) ->
  read_byte (mem s) (wrap (regs s Op1 + Z.of_nat j))
  <> read_byte (mem s) (wrap (regs s Op2 + Z.of_nat j)) ->
  (forall i, 0 <= i < Z.of_nat j -> wrap (regs s Op0 - (i + 1)) <> 0) ->
  exists s',
    cmp_loop (S j) s = Some s' /\
    regs s' Op3 = STRUCTS_ARENT_EQUAL /\
    mem s' = mem s /\
    trace s' = trace s ++ cmp_events (regs s Op1) (regs s Op2) (S j).
Proof.
  induction j as [|j IH]; intros s Ha Hb Heq Hne Hcnt.
  - cbn [Z.of_nat] in Hne. rewrite !Z.add_0_r, !wrap_small in Hne by assumption.
    set (s1 := cmp R2 R3 (ldrb_post R3 Op2 (ldrb_post R2 Op1 s))).
    assert (Hz1 : zf s1 = (read_byte (mem s) (regs s Op1)
                           =? read_byte (mem s) (regs s Op2)))
      by reflexivity.
    cbn [cmp_loop]. fold s1. unfold bne_taken. rewrite Hz1.
    apply Z.eqb_neq in Hne. rewrite Hne. cbn [negb].
    eexists. split; [reflexivity|]. split; [reflexivity|].
    split; [reflexivity|].
    change (trace (mov_imm Op3 STRUCTS_ARENT_EQUAL s1))
      with ((trace s ++ [Load (regs s Op1)]) ++ [Load (regs s Op2)]).
    now rewrite <- app_assoc.
  - set (a := regs s Op1) in *. set (b := regs s Op2) in *.
    set (s1 := cmp R2 R3 (ldrb_post R3 Op2 (ldrb_post R2 Op1 s))).
    set (s2 := subs_imm Op0 Op0 1 s1).
    assert (Hz1 : zf s1 = (read_byte (mem s) a =? read_byte (mem s) b))
      by reflexivity.
    assert (Hz2 : zf s2 = (wrap (regs s Op0 - 1) =? 0)) by reflexivity.
    assert (Hsh : forall x i, wrap (wrap (x + 1) + i) = wrap (x + (i + 1))).
    { intros x i. rewrite wrap_add_l. f_equal. lia. }
    assert (E0 : read_byte (mem s) a = read_byte (mem s) b).
    { specialize (Heq 0 ltac:(lia)).
      now rewrite !Z.add_0_r, !wrap_small in Heq. }
    destruct (IH s2) as (s' & Hrun & Hr & Hm & Htr).
    + apply wrap_range.
    + apply wrap_range.
    + intros i Hi.
      change (regs s2 Op1) with (wrap (a + 1)).
      change (regs s2 Op2) with (wrap (b + 1)).
      change (mem s2) with (mem s). rewrite !Hsh. apply Heq. lia.
    + change (regs s2 Op1) with (wrap (a + 1)).
      change (regs s2 Op2) with (wrap (b + 1)).
      change (mem s2) with (mem s). rewrite !Hsh.
      replace (Z.of_nat j + 1) with (Z.of_nat (S j)) by lia. exact Hne.
    + intros i Hi. change (regs s2 Op0) with (wrap (regs s Op0 - 1)).
      rewrite wrap_sub_l.
      replace (regs s Op0 - 1 - (i + 1)) with (regs s Op0 - (i + 1 + 1))
        by lia.
      apply Hcnt. lia.
    + exists s'.
      assert (Hrun' : cmp_loop (S (S j)) s = Some s').
      { cbn [cmp_loop]. fold s1. fold s2. unfold bne_taken.
        rewrite Hz1. apply Z.eqb_eq in E0. rewrite E0. cbn [negb].
        rewrite Hz2.
        specialize (Hcnt 0 ltac:(lia)).
        replace (regs s Op0 - (0 + 1)) with (regs s Op0 - 1) in Hcnt by lia.
        apply Z.eqb_neq in Hcnt. rewrite Hcnt. cbn [negb]. exact Hrun. }
      split; [exact Hrun'|]. split; [exact Hr|]. split; [exact Hm|].
      rewrite Htr.
      change (trace s2) with ((trace s ++ [Load a]) ++ [Load b]).
      rewrite <- !app_assoc. reflexivity.
Qed.

Lemma wrap_neg_nonzero i : 0 <= i -> i + 1 < modulus -> wrap (0 - (i + 1)) <> 0.
Proof.
  intros Hi Hlt. unfold wrap.
  replace (0 - (i + 1)) with (modulus - (i + 1) + (-1) * modulus) by lia.
  rewrite Z_mod_plus_full, Z.mod_small; lia.
Qed.

(** X19: size 0 does not stop compare: on non-null [a] and [b], if the
    bytes agree at the indices below [j] and differ at [j], compare(a, b, 0)
    returns STRUCTS_ARENT_EQUAL after [j + 1] passes, having loaded exactly
    the pairs 0 .. j and changed no byte. *)
Theorem compare_size_zero_first_mismatch : forall EFAULT a b s j,
  a <> NULL -> b <> NULL -> 0 <= a < modulus -> 0 <= b < modulus ->
  Z.of_nat j + 1 < modulus ->
  (forall i, 0 <= i < Z.of_nat j ->
     read_byte (mem s) (wrap (a + i)) = read_byte (mem s) (wrap (b + i))) ->
  read_byte (mem s) (wrap (a + Z.of_nat j))
  <> read_byte (mem s) (wrap (b + Z.of_nat j)) ->
  exists s',
    MEM_compareStructs EFAULT (S j) a b 0 s
    = Some (STRUCTS_ARENT_EQUAL, s') /\
    mem s' = mem s /\
    appended s s' (cmp_events a b (S j)).
Proof.
  intros EFAULT a b s j Ha Hb Ra Rb Hj Heq Hne.
  destruct (cmp_loop_mismatch j (entry 0 a b s)) as (s' & Hrun & Hr & Hm & Htr);
    try assumption.
  { intros i Hi. change (regs (entry 0 a b s) Op0) with 0.
    apply wrap_neg_nonzero; lia. }
  exists s'. unfold MEM_compareStructs.
  rewrite not_null by assumption. fold (entry 0 a b s). rewrite Hrun, Hr.
  split; [reflexivity|]. split; [exact Hm|exact Htr].
Qed.

Lemma twin_differ_below i :
  0 <= i < Z.of_nat 2 ->
  read_byte (mem twin_differ) (wrap (SRAM + i))
  = read_byte (mem twin_differ) (wrap (SRAM + 8 + i)).
Proof.
  intros Hi. assert (H : i = 0 \/ i = 1) by lia.
  destruct H as [->| ->]; reflexivity.
Defined.

Lemma twin_differ_at :
  read_byte (mem twin_differ) (wrap (SRAM + Z.of_nat 2))
  <> read_byte (mem twin_differ) (wrap (SRAM + 8 + Z.of_nat 2)).
Proof. vm_compute. discriminate. Defined.

Lemma compare_size_zero_first_mismatch_witness :
  (SRAM <> NULL /\ SRAM + 8 <> NULL /\
   0 <= SRAM < modulus /\ 0 <= SRAM + 8 < modulus /\
   Z.of_nat 2 + 1 < modulus /\
   (forall i, 0 <= i < Z.of_nat 2 ->
      read_byte (mem twin_differ) (wrap (SRAM + i))
      = read_byte (mem twin_differ) (wrap (SRAM + 8 + i))) /\
   read_byte (mem twin_differ) (wrap (SRAM + Z.of_nat 2))
   <> read_byte (mem twin_differ) (wrap (SRAM + 8 + Z.of_nat 2))) /\
  exists s',
    MEM_compareStructs 14 3 SRAM (SRAM + 8) 0 twin_differ
    = Some (STRUCTS_ARENT_EQUAL, s') /\
    mem s' = mem twin_differ /\
    appended twin_differ s' (cmp_events SRAM (SRAM + 8) 3).
Proof.
  destruct twin_ranges as (H1 & H2 & H3 & H4 & _).
  assert (H5 : Z.of_nat 2 + 1 < modulus) by reflexivity.
  split.
  - repeat split; try assumption; try apply H3; try apply H4.
    + exact twin_differ_below.
    + exact twin_differ_at.
  - exact (compare_size_zero_first_mismatch 14 SRAM (SRAM + 8) twin_differ 2
             H1 H2 H3 H4 H5 twin_differ_below twin_differ_at).
Defined.

(** ** Copy there and back *)

Lemma disjoint_sym a b n : disjoint a b n -> disjoint b a n.
Proof.
  intros H i j Hi Hj E. apply (H j i Hj Hi). now symmetry.
Defined.

(** X20: copying a region to a separate one and back leaves the source as
    it was: for non-null regions of [n >= 1] bytes that share no address,
    after
    copy(src, dst, n) and copy(dst, src, n) both regions hold the bytes the
    source held at the start. *)
Theorem copy_there_and_back : forall EFAULT src dst n s fuel,
  src <> NULL -> dst <> NULL ->
  0 <= src < modulus -> 0 <= dst < modulus -> 1 <= n < modulus ->
  disjoint src dst n ->
  (trips n <= fuel)%nat ->
  exists s1 s2,
    MEM_copyStruct EFAULT fuel src dst n s = Some (STRUCT_COPIED, s1) /\
    MEM_copyStruct EFAULT fuel dst src n s1 = Some (STRUCT_COPIED, s2) /\
    forall i, 0 <= i < n ->
      read_byte (mem s2) (wrap (src + i)) = read_byte (mem s) (wrap (src + i))
      /\
      read_byte (mem s2) (wrap (dst + i)) = read_byte (mem s) (wrap (src + i)).
Proof.
  intros EFAULT src dst n s fuel Hs Hd Rs Rd Rn Hsep Hf.
  assert (Rn' : 0 <= n < modulus) by lia.
  destruct (copy_regions EFAULT src dst n s fuel)
    as (s1 & Hc1 & Hd1 & Hs1); try assumption.
  destruct (copy_regions EFAULT dst src n s1 fuel)
    as (s2 & Hc2 & Hs2 & Hd2); try assumption; [now apply disjoint_sym|].
  exists s1, s2. split; [exact Hc1|]. split; [exact Hc2|].
  intros i Hi. split.
  - now rewrite Hs2, Hd1.
  - now rewrite Hd2, Hd1.
Qed.

Lemma copy_there_and_back_witness :
  (SRAM <> NULL /\ SRAM + 8 <> NULL /\
   0 <= SRAM < modulus /\ 0 <= SRAM + 8 < modulus /\ 1 <= 3 < modulus /\
   disjoint SRAM (SRAM + 8) 3 /\ (trips 3 <= 3)%nat) /\
  exists s1 s2,
    MEM_copyStruct 14 3 SRAM (SRAM + 8) 3 three_bytes
    = Some (STRUCT_COPIED, s1) /\
    MEM_copyStruct 14 3 (SRAM + 8) SRAM 3 s1 = Some (STRUCT_COPIED, s2) /\
    forall i, 0 <= i < 3 ->
      read_byte (mem s2) (wrap (SRAM + i))
      = read_byte (mem three_bytes) (wrap (SRAM + i))
      /\
      read_byte (mem s2) (wrap (SRAM + 8 + i))
      = read_byte (mem three_bytes) (wrap (SRAM + i)).
Proof.
  destruct twin_ranges as (H1 & H2 & H3 & H4 & H5).
  assert (H6 : (trips 3 <= 3)%nat) by apply le_n.
  split.
  - repeat split; try assumption; try apply H3; try apply H4; try apply H5.
    exact disjoint_SRAM_8.
  - exact (copy_there_and_back 14 SRAM (SRAM + 8) 3 three_bytes 3
             H1 H2 H3 H4 H5 disjoint_SRAM_8 H6).
Defined.
